(** * web_bot.py: the conversational job-application form

    A shallow embedding of the turn handler of [web_bot.py] (the block run
    under [if user_input := st.chat_input(...)]) together with the static
    question tables, the multi-select validator and the row sent to the
    spreadsheet.

    Modelling choices.
    - A Python [str] is a sequence of Unicode code points: [str := list N].
      Literals of the source are written [lit "..."], which decodes the
      UTF-8 bytes of the Rocq literal.
    - [str.lower], and the decimal-digit property behind [\d] and [int],
      depend on the interpreter's Unicode database.  They are the fields of
      the class [Unicode]; its two laws fix their behaviour on ASCII text,
      and [ascii_unicode] is an instance.
    - [int] raises [ValueError] on a string of more than [max_str_digits]
      digits, the interpreter's limit at its default of 4300; below the
      limit the value is unbounded.
    - [st.session_state] is the record [session]; [datetime.now()] and the
      behaviour of [sh.append_row] are read from a [world] given to each
      turn; the rows handed to [sh.append_row] are part of the outcome.
    - An uncaught exception, the [IndexError] of [q_list[step]] or the
      [ValueError] of [int], ends the script run: outcome [Raised].  The
      session state is kept, and the next input is handled by a new run. *)

From Stdlib Require Import String Ascii List NArith ZArith Bool Lia.
From Stdlib Require DecimalString DecimalN.
Import ListNotations.

Local Open Scope Z_scope.

(** ** Strings *)

Definition char := N.
Definition str := list char.

Fixpoint utf8_decode (bs : list N) : str :=
  match bs with
  | [] => []
  | b0 :: r0 =>
      if (b0 <? 128)%N then b0 :: utf8_decode r0
      else
        match r0 with
        | [] => []
        | b1 :: r1 =>
            if (b0 <? 224)%N
            then ((b0 - 192) * 64 + (b1 - 128))%N :: utf8_decode r1
            else
              match r1 with
              | [] => []
              | b2 :: r2 =>
                  if (b0 <? 240)%N
                  then (((b0 - 224) * 64 + (b1 - 128)) * 64 + (b2 - 128))%N
                         :: utf8_decode r2
                  else
                    match r2 with
                    | [] => []
                    | b3 :: r3 =>
                        ((((b0 - 240) * 64 + (b1 - 128)) * 64 + (b2 - 128)) * 64
                         + (b3 - 128))%N :: utf8_decode r3
                    end
              end
        end
  end.

Definition lit (s : string) : str :=
  utf8_decode (map N_of_ascii (list_ascii_of_string s)).

(** The newline character, written as an escape in the source. *)
Definition nl : str := [10%N].

Definition str_eqb (a b : str) : bool :=
  if list_eq_dec N.eq_dec a b then true else false.

(** [sep.join(l)] *)
Fixpoint join (sep : str) (l : list str) : str :=
  match l with
  | [] => []
  | [x] => x
  | x :: rest => x ++ sep ++ join sep rest
  end.

Fixpoint starts_with (pat s : str) : bool :=
  match pat, s with
  | [], _ => true
  | _ :: _, [] => false
  | p :: pat', c :: s' => (p =? c)%N && starts_with pat' s'
  end.

(** [pat in s] *)
Fixpoint contains (pat s : str) : bool :=
  starts_with pat s
  || match s with
     | [] => false
     | _ :: s' => contains pat s'
     end.

(** [str(n)] for a non-negative integer *)
Definition str_of_N (n : N) : str :=
  lit (DecimalString.NilZero.string_of_uint (N.to_uint n)).

(** [l[i]] with Python's negative indices; [None] stands for [IndexError]. *)
Definition py_index {A : Type} (l : list A) (i : Z) : option A :=
  let n := Z.of_nat (length l) in
  if 0 <=? i then nth_error l (Z.to_nat i)
  else if - n <=? i then nth_error l (Z.to_nat (n + i))
  else None.

(** [list(dict.fromkeys(l))]: the keys in order of first insertion. *)
Definition fromkeys (l : list str) : list str :=
  fold_left
    (fun keys k => if existsb (str_eqb k) keys then keys else keys ++ [k])
    l [].

(** ** The interpreter's Unicode database *)

Definition ascii_lower_char (c : char) : char :=
  if ((65 <=? c) && (c <=? 90))%N then (c + 32)%N else c.

Definition ascii_decimal (c : char) : option N :=
  if ((48 <=? c) && (c <=? 57))%N then Some (c - 48)%N else None.

Definition is_ascii (c : char) : bool := (c <? 128)%N.

Class Unicode := {
  (** [s.lower()] *)
  str_lower : str -> str;
  (** [Some d] when the character has the decimal-digit property, with
      value [d]: what [\d] matches and what [int] reads. *)
  decimal : char -> option N;
  str_lower_ascii :
    forall s, forallb is_ascii s = true -> str_lower s = map ascii_lower_char s;
  decimal_ascii :
    forall c, is_ascii c = true -> decimal c = ascii_decimal c
}.

(** The database restricted to ASCII: no other character is cased or a
    digit. *)
Definition ascii_unicode : Unicode.
Proof.
  refine {| str_lower := map ascii_lower_char;
            decimal := ascii_decimal |}.
  - reflexivity.
  - reflexivity.
Defined.

(** ** Constants and lists (section 4 of the source) *)

Definition EXP_OPTIONS : list str :=
  [lit "Housekeeping"; lit "Houseman"; lit "Dishwasher"; lit "Prep Cook";
   lit "Line cook"; lit "Server"; lit "Pool attendant / Host"; lit "Other"].
Definition SHIFT_OPTIONS : list str :=
  [lit "AM"; lit "PM"; lit "Flexible"; lit "Overnight"].
Definition LANG_OPTIONS : list str :=
  [lit "English"; lit "Spanish"; lit "Bilingual"].
Definition TRANS_OPTIONS : list str :=
  [lit "Own transportation"; lit "Public Transportation"].

(** A question is the source's triple (prompt, field name, options). *)
Record question := {
  prompt : str;
  field_name : str;
  options : option (list str)
}.

Fixpoint enumerate_from {A : Type} (i : N) (l : list A) : list (N * A) :=
  match l with
  | [] => []
  | x :: rest => (i, x) :: enumerate_from (i + 1)%N rest
  end.

(** ["\n".join([f"{i+1}. {opt}" for i, opt in enumerate(opts)])] *)
Definition numbered (opts : list str) : str :=
  join nl
    (map (fun p => str_of_N (fst p + 1) ++ lit ". " ++ snd p)
       (enumerate_from 0%N opts)).

Definition QUESTIONS_EN : list question :=
  [ {| prompt := lit "Let's start. What is your **First Name**?";
       field_name := lit "First Name"; options := None |};
    {| prompt := lit "Thanks. And what is your **Last Name**?";
       field_name := lit "Last Name"; options := None |};
    {| prompt := lit "What is your **Phone Number**?";
       field_name := lit "Phone"; options := None |};
    {| prompt :=
         lit "Select your **Previous Experience** (You can pick multiple, e.g., 1, 3):"
         ++ nl ++ numbered EXP_OPTIONS;
       field_name := lit "Experience"; options := Some EXP_OPTIONS |};
    {| prompt :=
         lit "What position do you want to **Apply For**? (Select numbers)"
         ++ nl ++ numbered EXP_OPTIONS;
       field_name := lit "Applied Position"; options := Some EXP_OPTIONS |};
    {| prompt :=
         lit "What **Shift** are you available to work?"
         ++ nl ++ numbered SHIFT_OPTIONS;
       field_name := lit "Shift"; options := Some SHIFT_OPTIONS |};
    {| prompt :=
         lit "What **Language** do you speak?" ++ nl ++ numbered LANG_OPTIONS;
       field_name := lit "Language"; options := Some LANG_OPTIONS |};
    {| prompt :=
         lit "What's your **Transportation** method?"
         ++ nl ++ numbered TRANS_OPTIONS;
       field_name := lit "Transport"; options := Some TRANS_OPTIONS |};
    {| prompt := lit "When can you **Start**?";
       field_name := lit "Start Date"; options := None |} ].

Definition QUESTIONS_ES : list question :=
  [ {| prompt := lit "Empecemos. ¿Cuál es tu **Primer Nombre**?";
       field_name := lit "First Name"; options := None |};
    {| prompt := lit "Gracias. ¿Y tu **Apellido**?";
       field_name := lit "Last Name"; options := None |};
    {| prompt := lit "¿Cuál es tu número de **Teléfono**?";
       field_name := lit "Phone"; options := None |};
    {| prompt :=
         lit "Selecciona tu **Experiencia Previa** (Puedes elegir varias, ej. 1, 3):"
         ++ nl ++ numbered EXP_OPTIONS;
       field_name := lit "Experience"; options := Some EXP_OPTIONS |};
    {| prompt :=
         lit "¿A qué posición quieres **Aplicar**? (Selecciona números)"
         ++ nl ++ numbered EXP_OPTIONS;
       field_name := lit "Applied Position"; options := Some EXP_OPTIONS |};
    {| prompt :=
         lit "¿Qué **Turno** puedes trabajar?" ++ nl ++ numbered SHIFT_OPTIONS;
       field_name := lit "Shift"; options := Some SHIFT_OPTIONS |};
    {| prompt :=
         lit "¿Qué **Idioma** hablas?" ++ nl ++ numbered LANG_OPTIONS;
       field_name := lit "Language"; options := Some LANG_OPTIONS |};
    {| prompt :=
         lit "¿Cuál es tu método de **Transporte**?"
         ++ nl ++ numbered TRANS_OPTIONS;
       field_name := lit "Transport"; options := Some TRANS_OPTIONS |};
    {| prompt := lit "¿Cuándo puedes **Comenzar**?";
       field_name := lit "Start Date"; options := None |} ].

(** ** Session state (section 5 of the source) *)

Inductive role := user | assistant.

(** One entry of [st.session_state.messages]. *)
Record message := { msg_role : role; content : str }.

(** The two values given to [st.session_state.lang] besides [None]. *)
Inductive lang_code := es | en.

Record session := {
  messages : list message;
  step : Z;
  data : list str;
  lang : option lang_code
}.

Definition initial_session : session :=
  {| messages :=
       [ {| msg_role := assistant;
            content := lit "Hello! / ¡Hola!" ++ nl ++ nl
                       ++ lit "Please type **English** or **Español** to start." |} ];
     step := -1;
     data := [];
     lang := None |}.

Definition append_message (r : role) (text : str) (st : session) : session :=
  {| messages := messages st ++ [ {| msg_role := r; content := text |} ];
     step := step st; data := data st; lang := lang st |}.

Definition set_step (n : Z) (st : session) : session :=
  {| messages := messages st; step := n; data := data st; lang := lang st |}.

Definition set_lang (l : option lang_code) (st : session) : session :=
  {| messages := messages st; step := step st; data := data st; lang := l |}.

Definition set_data (d : list str) (st : session) : session :=
  {| messages := messages st; step := step st; data := d; lang := lang st |}.

(** ** The clock and the spreadsheet *)

Record datetime := {
  year : N; month : N; day : N; hour : N; minute : N; second : N
}.

(** A decimal field of fixed width, zero padded. *)
Fixpoint zero_padded (width : nat) (n : N) : str :=
  match width with
  | O => []
  | S w => zero_padded w (n / 10)%N ++ [(48 + n mod 10)%N]
  end.

(** [t.strftime("%Y-%m-%d %H:%M:%S")] *)
Definition strftime (t : datetime) : str :=
  zero_padded 4 (year t) ++ lit "-" ++ zero_padded 2 (month t) ++ lit "-"
  ++ zero_padded 2 (day t) ++ lit " " ++ zero_padded 2 (hour t) ++ lit ":"
  ++ zero_padded 2 (minute t) ++ lit ":" ++ zero_padded 2 (second t).

(** What a call of [sh.append_row] does: it returns, or it raises an
    exception [e] whose [str(e)] is [detail]. *)
Inductive sink_result := Stored | Failed (detail : str).

Record world := {
  now : datetime;
  append_row : list str -> sink_result
}.

(** Two spreadsheets used in the examples: one that stores every row and
    one that is out of reach. *)
Definition sample_time : datetime :=
  {| year := 2025; month := 3; day := 9; hour := 14; minute := 5;
     second := 7 |}.

Definition accepting_world : world :=
  {| now := sample_time; append_row := fun _ => Stored |}.

Definition later_world : world :=
  {| now := {| year := 2025; month := 11; day := 30; hour := 8; minute := 0;
               second := 59 |};
     append_row := fun _ => Stored |}.

Definition failing_world : world :=
  {| now := sample_time;
     append_row := fun _ => Failed (lit "APIError: quota exceeded") |}.

(** The result of one script run on a user input: the new session state,
    the text shown as the assistant's reply and the rows handed to
    [sh.append_row]; or an uncaught exception ([IndexError] or
    [ValueError]), after which only the state is left. *)
Inductive outcome :=
| Replied (st : session) (response_text : str) (rows : list (list str))
| Raised (st : session).

Definition state_of (o : outcome) : session :=
  match o with
  | Replied st _ _ => st
  | Raised st => st
  end.

Definition invalid_selection : str :=
  lit "⚠️ Invalid selection. Please type the numbers (e.g., 1, 3).".
Definition application_received : str :=
  lit "✅ Application Received! You can close this window.".
Definition language_reprompt : str :=
  lit "Please type **English** or **Español**.".

(** The truth value of [current_q[2]]: [None] and the empty list are false. *)
Definition truthy (o : option (list str)) : bool :=
  match o with
  | Some (_ :: _) => true
  | _ => false
  end.

(** [sys.get_int_max_str_digits()] at the interpreter's default: the
    longest string of digits that [int] converts. *)
Definition max_str_digits : Z := 4300.

(** What the validator block leaves behind. *)
Inductive validation :=
| Valid (answer_to_save : str)
| Invalid
| ValueError.

Section Engine.

Context {U : Unicode}.

Definition is_decimal (c : char) : bool :=
  match decimal c with
  | Some _ => true
  | None => false
  end.

(** [re.findall(r'\d+', s)]: scanning from the left, each match takes as
    many digits as there are; [cur] is the match being read. *)
Fixpoint findall_from (cur : str) (s : str) : list str :=
  match s with
  | [] => match cur with
          | [] => []
          | _ :: _ => [cur]
          end
  | c :: s' =>
      if is_decimal c then findall_from (cur ++ [c]) s'
      else match cur with
           | [] => findall_from [] s'
           | _ :: _ => cur :: findall_from [] s'
           end
  end.

Definition findall_digits (s : str) : list str := findall_from [] s.

(** The number that a string of decimal digits denotes. *)
Definition digits_value (num : str) : Z :=
  fold_left
    (fun acc c => 10 * acc + match decimal c with
                             | Some d => Z.of_N d
                             | None => 0
                             end)
    num 0.

(** [int(num)] on a string of decimal digits; [None] stands for the
    [ValueError] raised when [num] has more than [max_str_digits]
    digits. *)
Definition int (num : str) : option Z :=
  if max_str_digits <? Z.of_nat (length num) then None
  else Some (digits_value num).

(** The loop of the validator over [found_numbers]; [None] when a call of
    [int] raises, which ends the loop and the script run. *)
Fixpoint valid_selections (options_available : list str)
    (found_numbers : list str) : option (list str) :=
  match found_numbers with
  | [] => Some []
  | num :: rest =>
      match int num with
      | None => None
      | Some idx =>
          match valid_selections options_available rest with
          | None => None
          | Some selections =>
              if (1 <=? idx) && (idx <=? Z.of_nat (length options_available))
              then match py_index options_available (idx - 1) with
                   | Some o => Some (o :: selections)
                   | None => Some selections
                   end
              else Some selections
          end
      end
  end.

(** The validator: [Valid answer_to_save] when [valid_answer] stays true,
    [Invalid] when it is set to false, [ValueError] when [int] raises. *)
Definition validator (options_available : option (list str))
    (user_input : str) : validation :=
  if truthy options_available then
    let opts := match options_available with
                | Some l => l
                | None => []
                end in
    match findall_digits user_input with
    | [] => Invalid
    | found_numbers =>
        match valid_selections opts found_numbers with
        | None => ValueError
        | Some [] => Invalid
        | Some sel => Valid (join (lit ", ") (fromkeys sel))
        end
    end
  else Valid user_input.

Definition reply (st : session) (response_text : str)
    (rows : list (list str)) : outcome :=
  Replied (append_message assistant response_text st) response_text rows.

(** Phase A: language selection. *)
Definition select_language (st : session) (user_input : str) : outcome :=
  let txt := str_lower user_input in
  if contains (lit "span") txt || contains (lit "espa") txt then
    let st := set_step 0 (set_lang (Some es) st) in
    match py_index QUESTIONS_ES 0 with
    | Some q => reply st (prompt q) []
    | None => Raised st
    end
  else if contains (lit "eng") txt || contains (lit "ingl") txt then
    let st := set_step 0 (set_lang (Some en) st) in
    match py_index QUESTIONS_EN 0 with
    | Some q => reply st (prompt q) []
    | None => Raised st
    end
  else reply st language_reprompt [].

(** Phase B: questions. *)
Definition answer_question (w : world) (st : session) (user_input : str)
    : outcome :=
  let q_list := match lang st with
                | Some es => QUESTIONS_ES
                | _ => QUESTIONS_EN
                end in
  match py_index q_list (step st) with
  | None => Raised st
  | Some current_q =>
      match validator (options current_q) user_input with
      | ValueError => Raised st
      | Invalid => reply st invalid_selection []
      | Valid answer_to_save =>
          let st := set_data (data st ++ [answer_to_save]) st in
          let next_step := step st + 1 in
          if next_step <? Z.of_nat (length q_list) then
            let st := set_step next_step st in
            match py_index q_list next_step with
            | Some q => reply st (prompt q) []
            | None => Raised st
            end
          else
            let timestamp := strftime (now w) in
            let row := timestamp :: data st in
            match append_row w row with
            | Stored =>
                reply (set_lang None (set_data [] (set_step (-1) st)))
                  application_received [row]
            | Failed e =>
                reply st (lit "Error saving data: " ++ e) [row]
            end
      end
  end.

(** One run of the script on [user_input]. *)
Definition handle_turn (w : world) (st : session) (user_input : str)
    : outcome :=
  let st := append_message user user_input st in
  if step st =? -1 then select_language st user_input
  else answer_question w st user_input.

End Engine.

(** ** Views of the state used in the statements *)

Inductive phase := AwaitingLocale | AwaitingAnswer.

(** The source tests [step == -1]. *)
Definition phase_of (st : session) : phase :=
  if step st =? -1 then AwaitingLocale else AwaitingAnswer.

(** The value of the local variable [q_list]. *)
Definition q_list_of (st : session) : list question :=
  match lang st with
  | Some es => QUESTIONS_ES
  | _ => QUESTIONS_EN
  end.

(** The value of [current_q], when the index is in range. *)
Definition current_question (st : session) : option question :=
  py_index (q_list_of st) (step st).

(** The prompt [ql[i][0]]. *)
Definition prompt_at (ql : list question) (i : Z) : str :=
  match py_index ql i with
  | Some q => prompt q
  | None => []
  end.

(** The same session up to the transcript. *)
Definition same_answers (st st' : session) : Prop :=
  step st' = step st /\ data st' = data st /\ lang st' = lang st.

(** The session after a turn that changed nothing but the transcript. *)
Definition with_exchange (st : session) (user_input response_text : str)
    : session :=
  append_message assistant response_text (append_message user user_input st).

(** No question follows the current one: the source's test
    [next_step < len(q_list)] fails. *)
Definition last_question (st : session) : Prop :=
  Z.of_nat (length (q_list_of st)) <= step st + 1.

(** A session of the examples: an English application in which the eight
    questions before the last have been answered. *)
Definition last_question_session : session :=
  {| messages := [];
     step := 8;
     data := [lit "Alex"; lit "Doe"; lit "555-0100"; lit "Server";
              lit "Line cook"; lit "AM, PM"; lit "Bilingual";
              lit "Own transportation"];
     lang := Some en |}.

(** A session of the examples at the question about the shift, which has
    four options. *)
Definition shift_question_session : session :=
  {| messages := [];
     step := 5;
     data := [lit "Alex"; lit "Doe"; lit "555-0100"; lit "Server";
              lit "Line cook"];
     lang := Some en |}.

(** The question [ql[i]] of a table, for an index in range. *)
Definition question_at (ql : list question) (i : nat) : question :=
  nth i ql {| prompt := []; field_name := []; options := None |}.

(** Nine inputs of the examples, one per question. *)
Definition sample_answers : list str :=
  [lit "Alex"; lit "Doe"; lit "555-0100"; lit "6"; lit "5 and 6";
   lit "1, 2"; lit "3"; lit "1"; lit "next Monday"].

(** The shape [YYYY-MM-DD HH:MM:SS]. *)
Definition ascii_digit (c : char) : bool := ((48 <=? c) && (c <=? 57))%N.

Definition timestamp_format (s : str) : bool :=
  match s with
  | [y1; y2; y3; y4; d1; m1; m2; d2; a1; a2; sp; h1; h2; c1; n1; n2; c2; s1; s2] =>
      forallb ascii_digit [y1; y2; y3; y4; m1; m2; a1; a2; h1; h2; n1; n2; s1; s2]
      && (d1 =? 45)%N && (d2 =? 45)%N && (sp =? 32)%N
      && (c1 =? 58)%N && (c2 =? 58)%N
  | _ => false
  end.

(** The instant that a text of the shape [YYYY-MM-DD HH:MM:SS] names. *)
Definition digit_of (c : char) : N := (c - 48)%N.

Definition read_timestamp (s : str) : option datetime :=
  match s with
  | [y1; y2; y3; y4; _; m1; m2; _; a1; a2; _; h1; h2; _; n1; n2; _; s1; s2] =>
      if timestamp_format s then
        Some {| year := 1000 * digit_of y1 + 100 * digit_of y2
                        + 10 * digit_of y3 + digit_of y4;
                month := 10 * digit_of m1 + digit_of m2;
                day := 10 * digit_of a1 + digit_of a2;
                hour := 10 * digit_of h1 + digit_of h2;
                minute := 10 * digit_of n1 + digit_of n2;
                second := 10 * digit_of s1 + digit_of s2 |}%N
      else None
  | _ => None
  end.

(** The second components of the triples, the same in both tables. *)
Definition field_names_table : list str :=
  [lit "First Name"; lit "Last Name"; lit "Phone"; lit "Experience";
   lit "Applied Position"; lit "Shift"; lit "Language"; lit "Transport";
   lit "Start Date"].

(** The third components of the triples, the same in both tables. *)
Definition options_table : list (option (list str)) :=
  [None; None; None; Some EXP_OPTIONS; Some EXP_OPTIONS; Some SHIFT_OPTIONS;
   Some LANG_OPTIONS; Some TRANS_OPTIONS; None].

(** ** The words of the specification, for comparison with the code *)

(** Keep each label where it first occurs and drop its later repeats. *)
Fixpoint first_occurrences (seen l : list str) : list str :=
  match l with
  | [] => []
  | x :: rest =>
      if existsb (str_eqb x) seen then first_occurrences seen rest
      else x :: first_occurrences (x :: seen) rest
  end.

Section Words.

Context {U : Unicode}.

(** [s] read as gaps without digits separating the runs [rs]: every run is
    a nonempty block of digits, preceded by a gap and followed by the end
    of the input or by a character that is not a digit. *)
Inductive maximal_runs : str -> list str -> Prop :=
| runs_end : forall gap,
    forallb (fun c => negb (is_decimal c)) gap = true ->
    maximal_runs gap []
| runs_next : forall gap r tail rs,
    forallb (fun c => negb (is_decimal c)) gap = true ->
    r <> [] ->
    forallb is_decimal r = true ->
    match tail with
    | [] => True
    | c :: _ => is_decimal c = false
    end ->
    maximal_runs tail rs ->
    maximal_runs (gap ++ r ++ tail) (r :: rs).

(** A candidate is in range when it lies in [1, len(options)]. *)
Definition in_range (opts : list str) (r : str) : bool :=
  (1 <=? digits_value r) && (digits_value r <=? Z.of_nat (length opts)).

(** The labels [options[candidate-1]] of the in-range candidates, in the
    order of the candidates. *)
Definition resolved_labels (opts : list str) (user_input : str) : list str :=
  map (fun r => nth (Z.to_nat (digits_value r - 1)) opts [])
    (filter (in_range opts) (findall_digits user_input)).

(** No run of digits of the input is longer than [int] converts. *)
Definition within_int_limit (user_input : str) : bool :=
  forallb (fun r => Z.of_nat (length r) <=? max_str_digits)
    (findall_digits user_input).

(** The keyword classifier of the locale phase, Spanish first. *)
Definition spanish_keyword (txt : str) : bool :=
  contains (lit "span") txt || contains (lit "espa") txt.
Definition english_keyword (txt : str) : bool :=
  contains (lit "eng") txt || contains (lit "ingl") txt.

(** The locale that the classifier selects, if any. *)
Definition selected_language (user_input : str) : option lang_code :=
  let txt := str_lower user_input in
  if spanish_keyword txt then Some es
  else if english_keyword txt then Some en
  else None.

(** An answer that passes the validator of its question. *)
Definition accepted (q : question) (a : str) : Prop :=
  match validator (options q) a with
  | Valid _ => True
  | _ => False
  end.

(** What the validator saves for the questions [qs] on the inputs
    [answers], question by question. *)
Fixpoint saved_answers (qs : list question) (answers : list str)
    : list str :=
  match qs, answers with
  | q :: qs', a :: answers' =>
      match validator (options q) a with
      | Valid s => s :: saved_answers qs' answers'
      | _ => saved_answers qs' answers'
      end
  | _, _ => []
  end.

End Words.

(** The table of a locale. *)
Definition questions_for (l : lang_code) : list question :=
  match l with
  | es => QUESTIONS_ES
  | en => QUESTIONS_EN
  end.

(** ** Runs of several turns *)

Record trace := {
  final : session;
  replies : list str;
  sent : list (list str);
  aborted : bool
}.

Section Runs.

Context {U : Unicode}.

(** The script is run once per input, each time in its own [world]; a run
    that raises gives no reply and hands over no row, and the next input
    is handled from the state it left. *)
Fixpoint run (st : session) (turns : list (world * str)) : trace :=
  match turns with
  | [] => {| final := st; replies := []; sent := []; aborted := false |}
  | (w, user_input) :: rest =>
      match handle_turn w st user_input with
      | Replied st' response_text rows =>
          let t := run st' rest in
          {| final := final t;
             replies := response_text :: replies t;
             sent := rows ++ sent t;
             aborted := aborted t |}
      | Raised st' =>
          let t := run st' rest in
          {| final := final t;
             replies := replies t;
             sent := sent t;
             aborted := true |}
      end
  end.

End Runs.

(** The reply and the rows of an outcome. *)
Definition response_of (o : outcome) : str :=
  match o with
  | Replied _ response_text _ => response_text
  | Raised _ => []
  end.

Definition rows_of (o : outcome) : list (list str) :=
  match o with
  | Replied _ _ rows => rows
  | Raised _ => []
  end.

(** ** The transitions of the handler *)

(** The entries that one turn adds to the transcript. *)
Definition exchange (user_input response_text : str) : list message :=
  [ {| msg_role := user; content := user_input |};
    {| msg_role := assistant; content := response_text |} ].

(** The transcript of a conversation, given its inputs and replies. *)
Fixpoint transcript_of (inputs replies : list str) : list message :=
  match inputs, replies with
  | i :: inputs', r :: replies' => exchange i r ++ transcript_of inputs' replies'
  | _, _ => []
  end.

(** The contents of the entries of a transcript written by [r], in their
    order. *)
Definition entries_of (r : role) (ms : list message) : list str :=
  map content
    (filter (fun m => match msg_role m, r with
                      | user, user | assistant, assistant => true
                      | _, _ => false
                      end) ms).

(** The sessions in which the handler leaves [st.session_state]: the reset
    session, or a cursor on one of the nine questions with a locale chosen
    and an answer for every question before the cursor. *)
Definition well_formed (st : session) : Prop :=
  (step st = -1 /\ data st = [] /\ lang st = None)
  \/ (0 <= step st <= 8
      /\ lang st <> None
      /\ step st <= Z.of_nat (length (data st))
      /\ (step st < 8 -> Z.of_nat (length (data st)) = step st)).

(** A session in which no submission has failed: there is exactly one
    answer for each question before the cursor. *)
Definition answers_match_cursor (st : session) : Prop :=
  (step st = -1 /\ data st = [] /\ lang st = None)
  \/ (0 <= step st <= 8 /\ lang st <> None
      /\ Z.of_nat (length (data st)) = step st).

Section Transitions.

Context {U : Unicode}.

(** The paths through the handler, read off its branches. *)
Inductive transition (w : world) (st : session) (user_input : str)
    : outcome -> Prop :=
| selects (l : lang_code) :
    step st = -1 ->
    selected_language user_input = Some l ->
    transition w st user_input
      (Replied
         {| messages :=
              messages st
              ++ exchange user_input (prompt_at (questions_for l) 0);
            step := 0;
            data := data st;
            lang := Some l |}
         (prompt_at (questions_for l) 0) [])
| reprompts :
    step st = -1 ->
    selected_language user_input = None ->
    transition w st user_input
      (Replied
         {| messages := messages st ++ exchange user_input language_reprompt;
            step := step st;
            data := data st;
            lang := lang st |}
         language_reprompt [])
| raises :
    step st <> -1 ->
    current_question st = None ->
    transition w st user_input (Raised (append_message user user_input st))
| overflows (q : question) :
    step st <> -1 ->
    current_question st = Some q ->
    validator (options q) user_input = ValueError ->
    transition w st user_input (Raised (append_message user user_input st))
| rejects (q : question) :
    step st <> -1 ->
    current_question st = Some q ->
    validator (options q) user_input = Invalid ->
    transition w st user_input
      (Replied
         {| messages := messages st ++ exchange user_input invalid_selection;
            step := step st;
            data := data st;
            lang := lang st |}
         invalid_selection [])
| advances (q q' : question) (answer : str) :
    step st <> -1 ->
    current_question st = Some q ->
    validator (options q) user_input = Valid answer ->
    step st + 1 < 9 ->
    py_index (q_list_of st) (step st + 1) = Some q' ->
    transition w st user_input
      (Replied
         {| messages := messages st ++ exchange user_input (prompt q');
            step := step st + 1;
            data := data st ++ [answer];
            lang := lang st |}
         (prompt q') [])
| stores (q : question) (answer : str) :
    step st <> -1 ->
    current_question st = Some q ->
    validator (options q) user_input = Valid answer ->
    ~ step st + 1 < 9 ->
    append_row w (strftime (now w) :: data st ++ [answer]) = Stored ->
    transition w st user_input
      (Replied
         {| messages := messages st ++ exchange user_input application_received;
            step := -1;
            data := [];
            lang := None |}
         application_received
         [strftime (now w) :: data st ++ [answer]])
| fails (q : question) (answer e : str) :
    step st <> -1 ->
    current_question st = Some q ->
    validator (options q) user_input = Valid answer ->
    ~ step st + 1 < 9 ->
    append_row w (strftime (now w) :: data st ++ [answer]) = Failed e ->
    transition w st user_input
      (Replied
         {| messages :=
              messages st
              ++ exchange user_input (lit "Error saving data: " ++ e);
            step := step st;
            data := data st ++ [answer];
            lang := lang st |}
         (lit "Error saving data: " ++ e)
         [strftime (now w) :: data st ++ [answer]]).

End Transitions.

(** [pat] occurs in [s] when the case of ASCII letters is ignored. *)
Definition occurs_ignoring_case (pat s : str) : Prop :=
  exists a k b, s = a ++ k ++ b /\ map ascii_lower_char k = pat.

(** ** Whole applications *)

(** One application as the user goes through it: the clock and the
    spreadsheet at each of its ten turns, the locale it selects, the input
    that selects it, and the nine answers. *)
Record application := {
  app_worlds : list world;
  app_lang : lang_code;
  app_locale : str;
  app_answers : list str
}.

Definition turns_of (a : application) : list (world * str) :=
  combine (app_worlds a) (app_locale a :: app_answers a).

(** Two applications of the examples, one in each locale. *)
Definition english_application : application :=
  {| app_worlds := repeat accepting_world 10;
     app_lang := en;
     app_locale := lit "English";
     app_answers := sample_answers |}.

Definition spanish_application : application :=
  {| app_worlds := repeat failing_world 9 ++ [later_world];
     app_lang := es;
     app_locale := lit "ESPANOL";
     app_answers :=
       [lit "Ana"; lit "Ruiz"; lit "555-0199"; lit "1"; lit "1"; lit "4";
        lit "2 o 3"; lit "2"; lit "el lunes"] |}.

Section Applications.

Context {U : Unicode}.

(** One step of [digits_value]: the digit [c] read after the value
    [acc]. *)
Definition int_step (acc : Z) (c : char) : Z :=
  10 * acc + match decimal c with
             | Some d => Z.of_N d
             | None => 0
             end.

(** The locale input selects the locale, every answer passes the
    validator of its question, and the spreadsheet stores what it is
    given at the last turn. *)
Definition complete_application (a : application) : Prop :=
  selected_language (app_locale a) = Some (app_lang a)
  /\ Forall2 accepted (questions_for (app_lang a)) (app_answers a)
  /\ length (app_worlds a) = 10%nat
  /\ forall row, append_row (last (app_worlds a) accepting_world) row = Stored.

(** The row that the application leaves in the spreadsheet. *)
Definition row_of (a : application) : list str :=
  strftime (now (last (app_worlds a) accepting_world))
  :: saved_answers (questions_for (app_lang a)) (app_answers a).

End Applications.

(** ** Timestamps *)

(** The values that a [datetime] can hold, from the year 1000 on: for
    the years before, whether [%Y] pads to four digits depends on the
    platform and the version of Python. *)
Definition valid_datetime (t : datetime) : Prop :=
  (1000 <= year t <= 9999)%N /\ (1 <= month t <= 12)%N
  /\ (1 <= day t <= 31)%N
  /\ (hour t < 24)%N /\ (minute t < 60)%N /\ (second t < 60)%N.



(** ** The whole script

    Every interaction runs the script from its first line.  What survives
    from one run to the next is [st.session_state] and the value cached
    by [@st.cache_resource].  The page is modelled by its visible
    elements in the order in which they are drawn; the spinner and the
    page configuration draw none. *)

Inductive element :=
| Title (text : str)
| ErrorBox (text : str)
| SuccessBox (text : str)
| ChatMessage (r : role) (text : str)
| ChatInput (placeholder : str)
| Traceback.

(** What the [try] block of [connect_services] does when it runs: it
    reaches its [return], or an exception is raised, of which [str(e)] is
    kept. *)
Inductive connect_attempt := Connects | ConnectFails (e : str).

(** The triple (model, sh, error_msg).  The two handles carry no data
    here: what [sh.append_row] does is read from the [world] of the
    turn. *)
Definition connection : Type := option unit * option unit * option str.

Definition connect_services (a : connect_attempt) : connection :=
  match a with
  | Connects => (Some tt, Some tt, None)
  | ConnectFails e => (None, None, Some e)
  end.

(** [@st.cache_resource]: the value returned by the first call is kept
    and returned by the later calls. *)
Definition cached_connect_services (cache : option connection)
    (a : connect_attempt) : connection * option connection :=
  match cache with
  | Some c => (c, Some c)
  | None => (connect_services a, Some (connect_services a))
  end.

(** The triple of a successful connection. *)
Definition ok_connection : connection := (Some tt, Some tt, None).

(** The truth value of [error_msg]: [None] and the empty string are
    false. *)
Definition str_truthy (o : option str) : bool :=
  match o with
  | Some (_ :: _) => true
  | _ => false
  end.

(** [st.session_state]: each of the four keys may be missing. *)
Record session_state := {
  messages_key : option (list message);
  step_key : option Z;
  data_key : option (list str);
  lang_key : option (option lang_code)
}.

Definition empty_session_state : session_state :=
  {| messages_key := None; step_key := None; data_key := None;
     lang_key := None |}.

(** Section 5 of the source: a key is set only when it is missing. *)
Definition init_session_state (s : session_state) : session_state :=
  {| messages_key := match messages_key s with
                     | Some m => Some m
                     | None => Some (messages initial_session)
                     end;
     step_key := match step_key s with
                 | Some n => Some n
                 | None => Some (-1)
                 end;
     data_key := match data_key s with
                 | Some d => Some d
                 | None => Some []
                 end;
     lang_key := match lang_key s with
                 | Some l => Some l
                 | None => Some None
                 end |}.

(** The session read from the state; a missing key reads as its initial
    value, which is what it is after [init_session_state]. *)
Definition session_of_state (s : session_state) : session :=
  {| messages := match messages_key s with
                 | Some m => m
                 | None => messages initial_session
                 end;
     step := match step_key s with
             | Some n => n
             | None => -1
             end;
     data := match data_key s with
             | Some d => d
             | None => []
             end;
     lang := match lang_key s with
             | Some l => l
             | None => None
             end |}.

Definition state_of_session (st : session) : session_state :=
  {| messages_key := Some (messages st); step_key := Some (step st);
     data_key := Some (data st); lang_key := Some (lang st) |}.

(** [str(e)] of the [AttributeError] raised by [sh.append_row] when [sh]
    is [None]. *)
Definition attribute_error : str :=
  lit "'NoneType' object has no attribute 'append_row'".

(** The world as the handler meets it: without a sheet every call of
    [sh.append_row] raises before anything is handed over. *)
Definition world_with (sh : option unit) (w : world) : world :=
  match sh with
  | Some _ => w
  | None => {| now := now w; append_row := fun _ => Failed attribute_error |}
  end.

(** The script stops at [st.stop()]: the error message of the connection
    in use is a nonempty string. *)
Definition offline (cache : option connection) (a : connect_attempt) : bool :=
  str_truthy (snd (fst (cached_connect_services cache a))).

(** The turns among the runs of the script: the runs in which
    [st.chat_input] returned a nonempty string. *)
Fixpoint turns_of_runs (runs : list (connect_attempt * world * option str))
    : list (world * str) :=
  match runs with
  | [] => []
  | (_, w, Some (c :: text)) :: rest => (w, c :: text) :: turns_of_runs rest
  | _ :: rest => turns_of_runs rest
  end.

Record script_result := {
  page : list element;
  state_after : session_state;
  cache_after : option connection;
  rows_appended : list (list str)
}.

Definition chat_elements (ms : list message) : list element :=
  map (fun m => ChatMessage (msg_role m) (content m)) ms.

(** The chat messages among the elements of a page. *)
Definition chat_of (p : list element) : list message :=
  flat_map (fun e => match e with
                     | ChatMessage r text =>
                         [ {| msg_role := r; content := text |} ]
                     | _ => []
                     end) p.

Section Script.

Context {U : Unicode}.

(** One run of the script: [a] is what connecting would do now, [w] the
    clock and the sheet, [cache] and [s] what the earlier runs left, and
    [user_input] what [st.chat_input] returns. *)
Definition script (a : connect_attempt) (w : world)
    (cache : option connection) (s : session_state)
    (user_input : option str) : script_result :=
  let head := [Title (lit "🚀 Job Application Portal")] in
  let '((model, sh, error_msg), cache') := cached_connect_services cache a in
  if str_truthy error_msg then
    {| page :=
         head
         ++ [ErrorBox (lit "System Offline: "
                       ++ match error_msg with
                          | Some e => e
                          | None => []
                          end)];
       state_after := s;
       cache_after := cache';
       rows_appended := [] |}
  else
    let s := init_session_state s in
    let st := session_of_state s in
    let shown :=
      head ++ [SuccessBox (lit "System Online ✅")]
      ++ chat_elements (messages st)
      ++ [ChatInput (lit "Type your answer here...")] in
    match user_input with
    | Some (c :: text) =>
        match handle_turn (world_with sh w) st (c :: text) with
        | Replied st' response_text rows =>
            {| page :=
                 shown ++ [ChatMessage user (c :: text);
                           ChatMessage assistant response_text];
               state_after := state_of_session st';
               cache_after := cache';
               rows_appended := match sh with
                                | Some _ => rows
                                | None => []
                                end |}
        | Raised st' =>
            {| page := shown ++ [ChatMessage user (c :: text); Traceback];
               state_after := state_of_session st';
               cache_after := cache';
               rows_appended := [] |}
        end
    | _ =>
        {| page := shown;
           state_after := s;
           cache_after := cache';
           rows_appended := [] |}
    end.

(** The script run once per interaction, each with its own attempt, world
    and input; the state and the cache are handed from run to run. *)
Fixpoint reruns (cache : option connection) (s : session_state)
    (runs : list (connect_attempt * world * option str))
    : list script_result :=
  match runs with
  | [] => []
  | (a, w, user_input) :: rest =>
      let r := script a w cache s user_input in
      r :: reruns (cache_after r) (state_after r) rest
  end.

End Script.

(** * Properties *)

(** ** Strings and lists *)

Lemma str_eqb_eq (a b : str) : str_eqb a b = true <-> a = b.
Proof.
  unfold str_eqb. destruct (list_eq_dec N.eq_dec a b); split; congruence.
Qed.

Lemma str_eqb_refl (a : str) : str_eqb a a = true.
Proof. apply str_eqb_eq. reflexivity. Qed.

Lemma starts_with_prefix (pat s : str) :
  starts_with pat s = true <-> exists b, s = pat ++ b.
Proof.
  revert s. induction pat as [|p pat IH]; intros s; simpl.
  - split; [intros _; exists s; reflexivity | reflexivity].
  - destruct s as [|c s]; simpl.
    + split; [discriminate | intros [b Hb]; discriminate].
    + rewrite andb_true_iff, N.eqb_eq, IH. split.
      * intros [-> [b ->]]. exists b. reflexivity.
      * intros [b Hb]. injection Hb as -> ->. split; [reflexivity | eauto].
Qed.

(** [contains] is the substring test: [pat] occurs somewhere in [s]. *)
Lemma contains_substring (pat s : str) :
  contains pat s = true <-> exists a b, s = a ++ pat ++ b.
Proof.
  induction s as [|c s IH].
  - simpl. rewrite orb_false_r, starts_with_prefix. split.
    + intros [b Hb]. exists [], b. exact Hb.
    + intros [a [b Hab]]. destruct a; [eauto|discriminate].
  - cbn [contains]. rewrite orb_true_iff, starts_with_prefix, IH. split.
    + intros [[b Hb] | [a [b Hab]]].
      * exists [], b. exact Hb.
      * exists (c :: a), b. simpl. congruence.
    + intros [a [b Hab]]. destruct a as [|x a].
      * left. exists b. exact Hab.
      * right. injection Hab as _ ->. eauto.
Qed.

Lemma py_index_bounds {A : Type} (l : list A) (i : Z) (x : A) :
  py_index l i = Some x ->
  - Z.of_nat (length l) <= i < Z.of_nat (length l).
Proof.
  unfold py_index. destruct (0 <=? i) eqn:H0.
  - intros H. assert (Hn : nth_error l (Z.to_nat i) <> None) by congruence.
    apply nth_error_Some in Hn. lia.
  - destruct (- Z.of_nat (length l) <=? i) eqn:H1; [|discriminate]. lia.
Qed.

Lemma py_index_nonneg {A : Type} (l : list A) (i : Z) :
  0 <= i -> py_index l i = nth_error l (Z.to_nat i).
Proof.
  intros H. unfold py_index. destruct (0 <=? i) eqn:H0; [reflexivity | lia].
Qed.

(** Only membership in [seen] matters. *)
Lemma first_occurrences_ext (s1 s2 l : list str) :
  (forall y, existsb (str_eqb y) s1 = existsb (str_eqb y) s2) ->
  first_occurrences s1 l = first_occurrences s2 l.
Proof.
  revert s1 s2. induction l as [|y l IH]; intros s1 s2 Hmem; simpl.
  - reflexivity.
  - rewrite Hmem. destruct (existsb (str_eqb y) s2).
    + apply IH. exact Hmem.
    + f_equal. apply IH. intros z. simpl. rewrite Hmem. reflexivity.
Qed.

(** [dict.fromkeys] against the words of the specification. *)
Lemma fromkeys_fold (seen l : list str) :
  fold_left
    (fun keys k => if existsb (str_eqb k) keys then keys else keys ++ [k])
    l seen
  = seen ++ first_occurrences seen l.
Proof.
  revert seen. induction l as [|x l IH]; intros seen; simpl.
  - symmetry. apply app_nil_r.
  - destruct (existsb (str_eqb x) seen) eqn:Hx.
    + apply IH.
    + rewrite IH, <- app_assoc. simpl. f_equal. f_equal.
      apply first_occurrences_ext. intros y.
      rewrite existsb_app. simpl. rewrite orb_false_r. apply orb_comm.
Qed.

Lemma fromkeys_first_occurrences (l : list str) :
  fromkeys l = first_occurrences [] l.
Proof. unfold fromkeys. rewrite fromkeys_fold. reflexivity. Qed.

Lemma first_occurrences_fresh (seen l : list str) (x : str) :
  In x (first_occurrences seen l) -> In x l /\ ~ In x seen.
Proof.
  revert seen. induction l as [|y l IH]; intros seen; simpl; [tauto|].
  destruct (existsb (str_eqb y) seen) eqn:Hy.
  - intros H. apply IH in H. tauto.
  - intros [-> | H].
    + split; [tauto|]. intros Hin.
      assert (existsb (str_eqb x) seen = true); [|congruence].
      apply existsb_exists. exists x. split; [exact Hin | apply str_eqb_refl].
    + apply IH in H. simpl in H. tauto.
Qed.

(** No label is kept twice. *)
Lemma first_occurrences_NoDup (seen l : list str) :
  NoDup (first_occurrences seen l).
Proof.
  revert seen. induction l as [|y l IH]; intros seen; simpl.
  - constructor.
  - destruct (existsb (str_eqb y) seen); [apply IH|].
    constructor; [|apply IH].
    intros H. apply first_occurrences_fresh in H. simpl in H. tauto.
Qed.

(** Every label not seen before is kept. *)
Lemma first_occurrences_complete (seen l : list str) (x : str) :
  In x l -> ~ In x seen -> In x (first_occurrences seen l).
Proof.
  revert seen. induction l as [|y l IH]; intros seen; simpl; [tauto|].
  intros [-> | Hin] Hseen.
  - destruct (existsb (str_eqb x) seen) eqn:Hx; [|left; reflexivity].
    apply existsb_exists in Hx. destruct Hx as [z [Hz Heq]].
    apply str_eqb_eq in Heq. subst z. contradiction.
  - destruct (existsb (str_eqb y) seen) eqn:Hy; [apply IH; assumption|].
    destruct (list_eq_dec N.eq_dec x y) as [->|Hne]; [left; reflexivity|].
    right. apply IH; [assumption|]. simpl. intros [Heq | H]; congruence.
Qed.

Lemma first_occurrences_nonempty (l : list str) :
  l <> [] -> first_occurrences [] l <> [].
Proof. destruct l; simpl; congruence. Qed.

(** ** The validator *)

Section Validator.

Context {U : Unicode}.




Lemma findall_from_gap (gap s : str) :
  forallb (fun c => negb (is_decimal c)) gap = true ->
  findall_from [] (gap ++ s) = findall_from [] s.
Proof.
  induction gap as [|c gap IH]; simpl; [reflexivity|].
  intros H. apply andb_true_iff in H. destruct H as [Hc Hgap].
  apply negb_true_iff in Hc. rewrite Hc. apply IH. exact Hgap.
Qed.

Lemma findall_from_digits (cur r s : str) :
  forallb is_decimal r = true ->
  findall_from cur (r ++ s) = findall_from (cur ++ r) s.
Proof.
  revert cur. induction r as [|c r IH]; intros cur; simpl.
  - rewrite app_nil_r. reflexivity.
  - intros H. apply andb_true_iff in H. destruct H as [Hc Hr].
    rewrite Hc, IH by assumption. rewrite <- app_assoc. reflexivity.
Qed.

Lemma findall_from_stop (cur tail : str) :
  cur <> [] ->
  match tail with
  | [] => True
  | c :: _ => is_decimal c = false
  end ->
  findall_from cur tail = cur :: findall_from [] tail.
Proof.
  intros Hne Ht. destruct cur as [|x cur]; [congruence|].
  destruct tail as [|c tail]; simpl; [reflexivity|].
  rewrite Ht. reflexivity.
Qed.

(** The maximal runs of a string are unique: they are what the scanner
    returns. *)
Lemma maximal_runs_unique (s : str) (rs : list str) :
  maximal_runs s rs -> findall_digits s = rs.
Proof.
  unfold findall_digits.
  induction 1 as [gap Hgap | gap r tail rs Hgap Hr Hd Ht Hrest IH].
  - rewrite <- (app_nil_r gap), findall_from_gap by assumption. reflexivity.
  - rewrite findall_from_gap, findall_from_digits by assumption.
    simpl. rewrite findall_from_stop by assumption. rewrite IH. reflexivity.
Qed.

(** Every match is a nonempty string of digits. *)
Lemma maximal_runs_digits (s : str) (rs : list str) :
  maximal_runs s rs ->
  Forall (fun r => r <> [] /\ forallb is_decimal r = true) rs.
Proof. induction 1; constructor; auto. Qed.

Lemma int_within (num : str) :
  (Z.of_nat (length num) <=? max_str_digits) = true ->
  int num = Some (digits_value num).
Proof.
  intros H. apply Z.leb_le in H. unfold int.
  destruct (max_str_digits <? Z.of_nat (length num)) eqn:E; [|reflexivity].
  apply Z.ltb_lt in E. lia.
Qed.

Lemma int_exceeds (num : str) :
  (Z.of_nat (length num) <=? max_str_digits) = false -> int num = None.
Proof.
  intros H. apply Z.leb_gt in H. unfold int.
  destruct (max_str_digits <? Z.of_nat (length num)) eqn:E; [reflexivity|].
  apply Z.ltb_ge in E. lia.
Qed.

(** The loop of the validator against the words of the specification,
    when [int] converts every match. *)
Lemma valid_selections_resolved (opts : list str) (found : list str) :
  forallb (fun r => Z.of_nat (length r) <=? max_str_digits) found = true ->
  valid_selections opts found
  = Some (map (fun r => nth (Z.to_nat (digits_value r - 1)) opts [])
            (filter (in_range opts) found)).
Proof.
  induction found as [|num rest IH]; intros H; [reflexivity|].
  cbn [forallb] in H. apply andb_true_iff in H. destruct H as [Hn Hrest].
  cbn [valid_selections filter]. rewrite (int_within num Hn), (IH Hrest).
  change (in_range opts num)
    with ((1 <=? digits_value num)
          && (digits_value num <=? Z.of_nat (length opts))).
  destruct ((1 <=? digits_value num)
            && (digits_value num <=? Z.of_nat (length opts))) eqn:Hr;
    [|reflexivity].
  apply andb_true_iff in Hr. destruct Hr as [H1 H2].
  apply Z.leb_le in H1, H2. rewrite py_index_nonneg by lia.
  destruct (nth_error opts (Z.to_nat (digits_value num - 1))) as [o|] eqn:Ho.
  - cbn [map]. do 2 f_equal. symmetry. apply nth_error_nth. exact Ho.
  - apply nth_error_None in Ho. lia.
Qed.

(** One match that [int] does not convert ends the loop. *)
Lemma valid_selections_overflow (opts : list str) (found : list str) :
  forallb (fun r => Z.of_nat (length r) <=? max_str_digits) found = false ->
  valid_selections opts found = None.
Proof.
  induction found as [|num rest IH]; intros H; [discriminate|].
  cbn [forallb] in H. cbn [valid_selections].
  destruct (Z.of_nat (length num) <=? max_str_digits) eqn:Hn.
  - rewrite (int_within num Hn), (IH H). reflexivity.
  - rewrite (int_exceeds num Hn). reflexivity.
Qed.

(** On a multi-select question, when [int] converts every match, the
    validator keeps the resolved labels, first occurrences only, joined by
    a comma and a space; with no resolved label it rejects the input. *)
Lemma validator_multi (opts : list str) (user_input : str) :
  opts <> [] ->
  within_int_limit user_input = true ->
  validator (Some opts) user_input
  = match resolved_labels opts user_input with
    | [] => Invalid
    | _ :: _ =>
        Valid (join (lit ", ")
                 (first_occurrences [] (resolved_labels opts user_input)))
    end.
Proof.
  intros Hne Hlim. unfold validator, resolved_labels.
  unfold within_int_limit in Hlim.
  destruct opts as [|o opts]; [congruence|]. cbn [truthy].
  rewrite <- fromkeys_first_occurrences.
  destruct (findall_digits user_input) as [|r rs]; [reflexivity|].
  rewrite (valid_selections_resolved (o :: opts) (r :: rs) Hlim).
  destruct (map _ (filter (in_range (o :: opts)) (r :: rs))); reflexivity.
Qed.

(** On a multi-select question a match that [int] does not convert makes
    the validator raise. *)
Lemma validator_overflow (opts : list str) (user_input : str) :
  opts <> [] ->
  within_int_limit user_input = false ->
  validator (Some opts) user_input = ValueError.
Proof.
  intros Hne Hlim. unfold validator. unfold within_int_limit in Hlim.
  destruct opts as [|o opts]; [congruence|]. cbn [truthy].
  destruct (findall_digits user_input) as [|r rs]; [discriminate|].
  rewrite (valid_selections_overflow (o :: opts) (r :: rs) Hlim).
  reflexivity.
Qed.

(** The validator raises only on such a match. *)
Lemma validator_raises (o : option (list str)) (user_input : str) :
  validator o user_input = ValueError <->
  truthy o = true /\ within_int_limit user_input = false.
Proof.
  destruct o as [[|x opts]|]; cbn [truthy];
    try (unfold validator; cbn [truthy]; split;
         [discriminate | intros [H _]; discriminate]).
  assert (Hne : x :: opts <> []) by discriminate.
  destruct (within_int_limit user_input) eqn:Hlim.
  - rewrite (validator_multi _ _ Hne Hlim).
    destruct (resolved_labels (x :: opts) user_input); split;
      try discriminate; intros [_ H]; discriminate.
  - rewrite (validator_overflow _ _ Hne Hlim). split; auto.
Qed.


(** Free text passes the validator unchanged. *)
Lemma validator_free_text (user_input : str) :
  validator None user_input = Valid user_input.
Proof. reflexivity. Qed.

End Validator.

(** ** The question tables *)

Lemma QUESTIONS_EN_length : length QUESTIONS_EN = 9%nat.
Proof. reflexivity. Qed.

Lemma QUESTIONS_ES_length : length QUESTIONS_ES = 9%nat.
Proof. reflexivity. Qed.

Lemma q_list_of_length (st : session) : length (q_list_of st) = 9%nat.
Proof. unfold q_list_of. destruct (lang st) as [[|]|]; reflexivity. Qed.

Lemma q_list_of_cases (st : session) :
  q_list_of st = QUESTIONS_ES \/ q_list_of st = QUESTIONS_EN.
Proof.
  unfold q_list_of.
  destruct (lang st) as [[|]|]; [left | right | right]; reflexivity.
Qed.

Lemma options_of_tables (ql : list question) :
  ql = QUESTIONS_ES \/ ql = QUESTIONS_EN -> map options ql = options_table.
Proof. intros [-> | ->]; reflexivity. Qed.

Lemma py_index_map {A B : Type} (f : A -> B) (l : list A) (i : Z) :
  py_index (map f l) i = option_map f (py_index l i).
Proof.
  unfold py_index. rewrite length_map.
  destruct (0 <=? i); [apply nth_error_map|].
  destruct (- Z.of_nat (length l) <=? i); [apply nth_error_map | reflexivity].
Qed.

Lemma py_index_in_range {A : Type} (l : list A) (i : Z) :
  - Z.of_nat (length l) <= i < Z.of_nat (length l) ->
  exists x, py_index l i = Some x.
Proof.
  intros H. unfold py_index.
  destruct (0 <=? i) eqn:H0.
  - destruct (nth_error l (Z.to_nat i)) eqn:Hn; [eauto|].
    apply nth_error_None in Hn. lia.
  - destruct (- Z.of_nat (length l) <=? i) eqn:H1; [|lia].
    destruct (nth_error l (Z.to_nat (Z.of_nat (length l) + i))) eqn:Hn;
      [eauto|].
    apply nth_error_None in Hn. lia.
Qed.

Lemma table_options (ql : list question) (i : Z) (q : question) :
  ql = QUESTIONS_ES \/ ql = QUESTIONS_EN ->
  py_index ql i = Some q ->
  py_index options_table i = Some (options q) /\ -9 <= i < 9.
Proof.
  intros Hql Hq. split.
  - rewrite <- (options_of_tables ql Hql), py_index_map, Hq. reflexivity.
  - pose proof (py_index_bounds _ _ _ Hq) as B.
    destruct Hql as [-> | ->];
      rewrite ?QUESTIONS_ES_length, ?QUESTIONS_EN_length in B; exact B.
Qed.



(** The last question of either table is a free-text question, and the
    only index after which no question follows is the last. *)
Lemma table_last (ql : list question) (i : Z) (q : question) :
  ql = QUESTIONS_ES \/ ql = QUESTIONS_EN ->
  py_index ql i = Some q ->
  i <> -1 ->
  ~ i + 1 < 9 ->
  i = 8 /\ options q = None.
Proof.
  intros Hql Hq H1 H9. destruct (table_options ql i q Hql Hq) as [Ht B].
  assert (i = 8) by lia. subst i. split; [reflexivity|].
  change (py_index options_table 8) with (Some (@None (list str))) in Ht.
  congruence.
Qed.

Lemma table_next (ql : list question) (i : Z) (q : question) :
  ql = QUESTIONS_ES \/ ql = QUESTIONS_EN ->
  py_index ql i = Some q ->
  i + 1 < 9 ->
  exists q', py_index ql (i + 1) = Some q'.
Proof.
  intros Hql Hq H9. apply py_index_in_range.
  pose proof (py_index_bounds _ _ _ Hq) as B.
  destruct Hql as [-> | ->];
    rewrite ?QUESTIONS_ES_length, ?QUESTIONS_EN_length in *; lia.
Qed.

(** ** One turn *)

Section Turn.

Context {U : Unicode}.

Lemma phase_of_locale (st : session) :
  phase_of st = AwaitingLocale <-> step st = -1.
Proof.
  unfold phase_of. destruct (step st =? -1) eqn:H.
  - apply Z.eqb_eq in H. tauto.
  - apply Z.eqb_neq in H. split; [discriminate | tauto].
Qed.

Lemma phase_of_answer (st : session) :
  phase_of st = AwaitingAnswer <-> step st <> -1.
Proof.
  unfold phase_of. destruct (step st =? -1) eqn:H.
  - apply Z.eqb_eq in H. split; [discriminate | tauto].
  - apply Z.eqb_neq in H. tauto.
Qed.

Lemma handle_turn_locale (w : world) (st : session) (user_input : str) :
  step st = -1 ->
  handle_turn w st user_input
  = select_language (append_message user user_input st) user_input.
Proof.
  intros H. unfold handle_turn. cbn [append_message step]. rewrite H.
  reflexivity.
Qed.

Lemma handle_turn_answer (w : world) (st : session) (user_input : str) :
  step st <> -1 ->
  handle_turn w st user_input
  = answer_question w (append_message user user_input st) user_input.
Proof.
  intros H. unfold handle_turn. cbn [append_message step].
  apply Z.eqb_neq in H. rewrite H. reflexivity.
Qed.

(** The validator rejects: only the transcript grows. *)
Lemma turn_rejected (w : world) (st : session) (user_input : str)
    (q : question) :
  step st <> -1 ->
  current_question st = Some q ->
  validator (options q) user_input = Invalid ->
  handle_turn w st user_input
  = Replied (with_exchange st user_input invalid_selection)
      invalid_selection [].
Proof.
  intros Hs Hq Hv. rewrite handle_turn_answer by assumption.
  unfold answer_question. cbn [append_message lang step].
  change (match lang st with
          | Some es => QUESTIONS_ES
          | _ => QUESTIONS_EN
          end) with (q_list_of st).
  change (py_index (q_list_of st) (step st)) with (current_question st).
  rewrite Hq, Hv. reflexivity.
Qed.

(** The validator raises: the run ends after the user's message is
    recorded. *)
Lemma turn_overflows (w : world) (st : session) (user_input : str)
    (q : question) :
  step st <> -1 ->
  current_question st = Some q ->
  validator (options q) user_input = ValueError ->
  handle_turn w st user_input = Raised (append_message user user_input st).
Proof.
  intros Hs Hq Hv. rewrite handle_turn_answer by assumption.
  unfold answer_question. cbn [append_message lang step].
  change (match lang st with
          | Some es => QUESTIONS_ES
          | _ => QUESTIONS_EN
          end) with (q_list_of st).
  change (py_index (q_list_of st) (step st)) with (current_question st).
  rewrite Hq, Hv. reflexivity.
Qed.

(** The validator accepts and a question follows. *)
Lemma turn_advances (w : world) (st : session) (user_input answer : str)
    (q q' : question) :
  step st <> -1 ->
  current_question st = Some q ->
  validator (options q) user_input = Valid answer ->
  step st + 1 < 9 ->
  py_index (q_list_of st) (step st + 1) = Some q' ->
  handle_turn w st user_input
  = Replied
      {| messages := messages (with_exchange st user_input (prompt q'));
         step := step st + 1;
         data := data st ++ [answer];
         lang := lang st |}
      (prompt q') [].
Proof.
  intros Hs Hq Hv Hn Hq'. rewrite handle_turn_answer by assumption.
  unfold answer_question. cbn [append_message lang step].
  change (match lang st with
          | Some es => QUESTIONS_ES
          | _ => QUESTIONS_EN
          end) with (q_list_of st).
  change (py_index (q_list_of st) (step st)) with (current_question st).
  rewrite Hq, Hv. cbn [append_message set_data step data lang messages].
  rewrite q_list_of_length.
  destruct (step st + 1 <? Z.of_nat 9) eqn:Hlt; [|apply Z.ltb_ge in Hlt; lia].
  cbn [set_step step]. rewrite Hq'. reflexivity.
Qed.

(** The validator accepts and no question follows: the row is handed to
    the spreadsheet, and the outcome depends on what the spreadsheet
    does. *)
Lemma turn_submits (w : world) (st : session) (user_input answer : str)
    (q : question) :
  step st <> -1 ->
  current_question st = Some q ->
  validator (options q) user_input = Valid answer ->
  ~ step st + 1 < 9 ->
  handle_turn w st user_input
  = let row := strftime (now w) :: data st ++ [answer] in
    match append_row w row with
    | Stored =>
        Replied
          {| messages :=
               messages (with_exchange st user_input application_received);
             step := -1;
             data := [];
             lang := None |}
          application_received [row]
    | Failed e =>
        Replied
          {| messages :=
               messages (with_exchange st user_input
                           (lit "Error saving data: " ++ e));
             step := step st;
             data := data st ++ [answer];
             lang := lang st |}
          (lit "Error saving data: " ++ e) [row]
    end.
Proof.
  intros Hs Hq Hv Hn. rewrite handle_turn_answer by assumption.
  unfold answer_question. cbn [append_message lang step].
  change (match lang st with
          | Some es => QUESTIONS_ES
          | _ => QUESTIONS_EN
          end) with (q_list_of st).
  change (py_index (q_list_of st) (step st)) with (current_question st).
  rewrite Hq, Hv. cbn [append_message set_data step data lang messages].
  rewrite q_list_of_length.
  destruct (step st + 1 <? Z.of_nat 9) eqn:Hlt; [apply Z.ltb_lt in Hlt; lia|].
  cbv zeta. destruct (append_row w _); reflexivity.
Qed.

Lemma prompt_at_index (ql : list question) (i : Z) (q : question) :
  py_index ql i = Some q -> prompt_at ql i = prompt q.
Proof. intros H. unfold prompt_at. rewrite H. reflexivity. Qed.

Lemma first_question (ql : list question) :
  ql = QUESTIONS_ES \/ ql = QUESTIONS_EN ->
  exists q, py_index ql 0 = Some q.
Proof.
  intros Hql. apply py_index_in_range.
  destruct Hql as [-> | ->];
    rewrite ?QUESTIONS_ES_length, ?QUESTIONS_EN_length; lia.
Qed.

(** The three branches of the language selection. *)
Lemma turn_selects_spanish (w : world) (st : session) (user_input : str) :
  step st = -1 ->
  spanish_keyword (str_lower user_input) = true ->
  handle_turn w st user_input
  = Replied
      {| messages :=
           messages (with_exchange st user_input (prompt_at QUESTIONS_ES 0));
         step := 0;
         data := data st;
         lang := Some es |}
      (prompt_at QUESTIONS_ES 0) [].
Proof.
  intros Hs Hk. rewrite handle_turn_locale by assumption.
  unfold select_language. unfold spanish_keyword in Hk. rewrite Hk.
  destruct (first_question QUESTIONS_ES) as [q Hq]; [left; reflexivity|].
  rewrite (prompt_at_index _ _ _ Hq), Hq. reflexivity.
Qed.

Lemma turn_selects_english (w : world) (st : session) (user_input : str) :
  step st = -1 ->
  spanish_keyword (str_lower user_input) = false ->
  english_keyword (str_lower user_input) = true ->
  handle_turn w st user_input
  = Replied
      {| messages :=
           messages (with_exchange st user_input (prompt_at QUESTIONS_EN 0));
         step := 0;
         data := data st;
         lang := Some en |}
      (prompt_at QUESTIONS_EN 0) [].
Proof.
  intros Hs Hk He. rewrite handle_turn_locale by assumption.
  unfold select_language. unfold spanish_keyword in Hk.
  unfold english_keyword in He. rewrite Hk, He.
  destruct (first_question QUESTIONS_EN) as [q Hq]; [right; reflexivity|].
  rewrite (prompt_at_index _ _ _ Hq), Hq. reflexivity.
Qed.

Lemma turn_reprompts (w : world) (st : session) (user_input : str) :
  step st = -1 ->
  spanish_keyword (str_lower user_input) = false ->
  english_keyword (str_lower user_input) = false ->
  handle_turn w st user_input
  = Replied (with_exchange st user_input language_reprompt)
      language_reprompt [].
Proof.
  intros Hs Hk He. rewrite handle_turn_locale by assumption.
  unfold select_language. unfold spanish_keyword in Hk.
  unfold english_keyword in He. rewrite Hk, He. reflexivity.
Qed.

End Turn.

(** ** Turns that leave the session where it is *)

Section Stuck.

Context {U : Unicode}.


(** Any number of turns that each answer [response] and change nothing
    but the transcript. *)
Lemma run_stuck (response : str) (ok : str -> Prop) (st0 : session) :
  (forall w st user_input, same_answers st0 st -> ok user_input ->
     handle_turn w st user_input
     = Replied (with_exchange st user_input response) response []) ->
  forall turns st,
    same_answers st0 st ->
    Forall (fun t => ok (snd t)) turns ->
    same_answers st0 (final (run st turns))
    /\ replies (run st turns) = map (fun _ => response) turns
    /\ sent (run st turns) = []
    /\ aborted (run st turns) = false.
Proof.
  intros Hturn turns. induction turns as [|[w user_input] turns IH];
    intros st Hst Hok.
  - simpl. auto.
  - inversion Hok as [|t ts Hhd Htl]; subst. cbn [snd] in Hhd.
    cbn [run]. rewrite (Hturn w st user_input Hst Hhd).
    destruct (IH (with_exchange st user_input response)) as [H1 [H2 [H3 H4]]].
    + exact Hst.
    + exact Htl.
    + cbn [final replies sent aborted map app]. rewrite H2, H3. auto.
Qed.

End Stuck.

(** * The claims *)

(** C7. The two question tables are parallel: they have the same length,
    and at every index the English and the Spanish question carry the
    same field name and the same options, so that they differ in the
    prompt only. *)
Theorem question_sets_parallel :
  length QUESTIONS_EN = length QUESTIONS_ES
  /\ (forall i : nat,
        option_map field_name (nth_error QUESTIONS_EN i)
        = option_map field_name (nth_error QUESTIONS_ES i))
  /\ (forall i : nat,
        option_map options (nth_error QUESTIONS_EN i)
        = option_map options (nth_error QUESTIONS_ES i)).
Proof.
  split; [rewrite QUESTIONS_EN_length, QUESTIONS_ES_length; reflexivity|].
  split; intros i.
  - rewrite <- !nth_error_map.
    assert (Hen : map field_name QUESTIONS_EN = field_names_table)
      by (vm_compute; reflexivity).
    assert (Hes : map field_name QUESTIONS_ES = field_names_table)
      by (vm_compute; reflexivity).
    rewrite Hen, Hes. reflexivity.
  - rewrite <- !nth_error_map.
    rewrite (options_of_tables QUESTIONS_EN) by (right; reflexivity).
    rewrite (options_of_tables QUESTIONS_ES) by (left; reflexivity).
    reflexivity.
Qed.

Section Locale.

Context {U : Unicode}.

Lemma lower_maybe : str_lower (lit "maybe") = lit "maybe".
Proof. rewrite str_lower_ascii; reflexivity. Qed.

(** C5. In the locale phase the input is lower-cased and searched for
    keywords: [span] or [espa] select Spanish, otherwise [eng] or [ingl]
    select English; on a match the cursor becomes 0 (the answer phase) and
    the reply is the first prompt of the selected table.  With no keyword,
    as in [maybe], the locale, the cursor and the answers stay as they
    are, the reply asks for the language again, and this repeats for any
    number of such inputs. *)
Theorem locale_phase_classifier (w : world) (st : session)
    (user_input : str) :
  phase_of st = AwaitingLocale ->
  (spanish_keyword (str_lower user_input) = true ->
   handle_turn w st user_input
   = Replied
       {| messages :=
            messages (with_exchange st user_input (prompt_at QUESTIONS_ES 0));
          step := 0;
          data := data st;
          lang := Some es |}
       (prompt_at QUESTIONS_ES 0) []
   /\ phase_of (state_of (handle_turn w st user_input)) = AwaitingAnswer)
  /\ (spanish_keyword (str_lower user_input) = false ->
      english_keyword (str_lower user_input) = true ->
      handle_turn w st user_input
      = Replied
          {| messages :=
               messages
                 (with_exchange st user_input (prompt_at QUESTIONS_EN 0));
             step := 0;
             data := data st;
             lang := Some en |}
          (prompt_at QUESTIONS_EN 0) []
      /\ phase_of (state_of (handle_turn w st user_input)) = AwaitingAnswer)
  /\ (spanish_keyword (str_lower user_input) = false ->
      english_keyword (str_lower user_input) = false ->
      handle_turn w st user_input
      = Replied
          {| messages := messages (with_exchange st user_input language_reprompt);
             step := step st;
             data := data st;
             lang := lang st |}
          language_reprompt [])
  /\ handle_turn w st (lit "maybe")
     = Replied (with_exchange st (lit "maybe") language_reprompt)
         language_reprompt []
  /\ (forall turns,
        Forall (fun t => spanish_keyword (str_lower (snd t)) = false
                         /\ english_keyword (str_lower (snd t)) = false)
          turns ->
        phase_of (final (run st turns)) = AwaitingLocale
        /\ step (final (run st turns)) = step st
        /\ data (final (run st turns)) = data st
        /\ lang (final (run st turns)) = lang st
        /\ replies (run st turns) = map (fun _ => language_reprompt) turns
        /\ sent (run st turns) = []).
Proof.
  intros Hphase. apply phase_of_locale in Hphase.
  split; [|split; [|split; [|split]]].
  - intros Hk. rewrite (turn_selects_spanish w st user_input Hphase Hk).
    split; reflexivity.
  - intros Hk He.
    rewrite (turn_selects_english w st user_input Hphase Hk He).
    split; reflexivity.
  - intros Hk He. rewrite (turn_reprompts w st user_input Hphase Hk He).
    reflexivity.
  - apply turn_reprompts; [assumption | |]; rewrite lower_maybe; reflexivity.
  - intros turns Hturns.
    destruct (run_stuck language_reprompt
                (fun s => spanish_keyword (str_lower s) = false
                          /\ english_keyword (str_lower s) = false) st)
      with (turns := turns) (st := st)
      as [[Hs [Hd Hl]] [Hr [Hsent _]]].
    + intros w' st' s [Hs' _] [Hk He]. apply turn_reprompts; congruence.
    + repeat split.
    + exact Hturns.
    + repeat split; try assumption.
      apply phase_of_locale. congruence.
Qed.

(** C10. The Spanish keywords are tested first: an input whose lower-cased
    text holds both a Spanish and an English keyword selects Spanish. *)
Theorem spanish_keyword_first (w : world) (st : session) (user_input : str) :
  phase_of st = AwaitingLocale ->
  spanish_keyword (str_lower user_input) = true ->
  english_keyword (str_lower user_input) = true ->
  lang (state_of (handle_turn w st user_input)) = Some es.
Proof.
  intros Hphase Hk _. apply phase_of_locale in Hphase.
  rewrite (turn_selects_spanish w st user_input Hphase Hk). reflexivity.
Qed.

End Locale.

(** ** ASCII inputs read the same under every Unicode database *)

Section Matches.

Context {U : Unicode}.


End Matches.

Section Ascii.

Context {U : Unicode}.



Lemma int_fold_ascii (r : str) (acc : Z) :
  forallb is_ascii r = true ->
  fold_left
    (fun a c => 10 * a + match decimal c with
                         | Some d => Z.of_N d
                         | None => 0
                         end) r acc
  = fold_left
      (fun a c => 10 * a + match ascii_decimal c with
                           | Some d => Z.of_N d
                           | None => 0
                           end) r acc.
Proof.
  revert acc. induction r as [|c r IH]; intros acc H; [reflexivity|].
  simpl in H. apply andb_true_iff in H. destruct H as [Hc Hr].
  cbn [fold_left]. rewrite (decimal_ascii c Hc). apply IH. exact Hr.
Qed.

Lemma digits_value_ascii (r : str) :
  forallb is_ascii r = true -> digits_value r = @digits_value ascii_unicode r.
Proof. intros H. unfold digits_value. apply int_fold_ascii. exact H. Qed.

Lemma int_ascii (r : str) :
  forallb is_ascii r = true -> int r = @int ascii_unicode r.
Proof. intros H. unfold int. rewrite (digits_value_ascii r H). reflexivity. Qed.





End Ascii.

(** ** The timestamp *)

Lemma zero_padded_digit (n : N) : ascii_digit (48 + n mod 10)%N = true.
Proof.
  unfold ascii_digit.
  assert (H : (n mod 10 < 10)%N) by (apply N.mod_lt; discriminate).
  revert H. generalize (n mod 10)%N. intros m H.
  apply andb_true_iff. split; apply N.leb_le; lia.
Qed.

(** The timestamp always has the shape [YYYY-MM-DD HH:MM:SS]. *)
Lemma strftime_format (t : datetime) : timestamp_format (strftime t) = true.
Proof.
  unfold strftime. cbn [zero_padded app].
  change (lit "-") with [45%N]. change (lit " ") with [32%N].
  change (lit ":") with [58%N]. cbn [app timestamp_format forallb].
  rewrite !zero_padded_digit. reflexivity.
Qed.

Lemma split_digit (n : N) :
  (n = 10 * (n / 10) + n mod 10 /\ n mod 10 < 10)%N.
Proof.
  split; [apply N.div_mod; discriminate | apply N.mod_lt; discriminate].
Qed.

Lemma four_digits (y : N) :
  (y < 10000)%N ->
  (1000 * ((y / 10 / 10 / 10) mod 10) + 100 * ((y / 10 / 10) mod 10)
   + 10 * ((y / 10) mod 10) + y mod 10)%N = y.
Proof.
  intros H.
  destruct (split_digit y) as [E0 L0].
  destruct (split_digit (y / 10)) as [E1 L1].
  destruct (split_digit (y / 10 / 10)) as [E2 L2].
  destruct (split_digit (y / 10 / 10 / 10)) as [E3 L3].
  revert E0 L0 E1 L1 E2 L2 E3 L3.
  generalize (y mod 10)%N ((y / 10) mod 10)%N ((y / 10 / 10) mod 10)%N
    ((y / 10 / 10 / 10) mod 10)%N (y / 10 / 10 / 10 / 10)%N.
  generalize (y / 10 / 10 / 10)%N. generalize (y / 10 / 10)%N.
  generalize (y / 10)%N. intros. lia.
Qed.

Lemma two_digits (y : N) :
  (y < 100)%N -> (10 * ((y / 10) mod 10) + y mod 10)%N = y.
Proof.
  intros H.
  destruct (split_digit y) as [E0 L0].
  destruct (split_digit (y / 10)) as [E1 L1].
  revert E0 L0 E1 L1.
  generalize (y mod 10)%N ((y / 10) mod 10)%N (y / 10 / 10)%N.
  generalize (y / 10)%N. intros. lia.
Qed.

(** The timestamp names the instant it was made from: read back field by
    field, it gives the clock reading again. *)
Lemma read_strftime (t : datetime) :
  valid_datetime t -> read_timestamp (strftime t) = Some t.
Proof.
  intros [Hy [Hm [Hd [Hh [Hmi Hs]]]]].
  pose proof (strftime_format t) as F. revert F.
  unfold strftime. cbn [zero_padded app].
  change (lit "-") with [45%N]. change (lit " ") with [32%N].
  change (lit ":") with [58%N]. cbn [app]. intros F.
  unfold read_timestamp. rewrite F. unfold digit_of.
  rewrite !(N.add_comm 48), !N.add_sub.
  destruct t as [y mo d h mi se].
  cbn [year month day hour minute second] in *.
  rewrite (four_digits y), (two_digits mo), (two_digits d), (two_digits h),
    (two_digits mi), (two_digits se) by lia.
  reflexivity.
Qed.

Section Answers.

Context {U : Unicode}.

Lemma last_question_iff (st : session) :
  last_question st <-> ~ step st + 1 < 9.
Proof. unfold last_question. rewrite q_list_of_length. lia. Qed.









End Answers.

Section Submission.

Context {U : Unicode}.

(** The question answered last is the free-text question at index 8. *)
Lemma last_question_free_text (st : session) (q : question) :
  step st <> -1 ->
  current_question st = Some q ->
  last_question st ->
  step st = 8 /\ options q = None.
Proof.
  intros Hs Hq Hlast. apply last_question_iff in Hlast.
  apply (table_last _ _ _ (q_list_of_cases st) Hq Hs Hlast).
Qed.

Lemma exchange_messages (st : session) (user_input response_text : str) :
  messages (with_exchange st user_input response_text)
  = messages st
    ++ [ {| msg_role := user; content := user_input |};
         {| msg_role := assistant; content := response_text |} ].
Proof.
  unfold with_exchange. cbn [append_message messages].
  rewrite <- app_assoc. reflexivity.
Qed.

(** C2. When the answer to the last question is accepted and the
    spreadsheet stores the row: exactly one row is handed over, the
    timestamp followed by the collected answers; the timestamp has the
    shape YYYY-MM-DD HH:MM:SS and names the clock reading of this very
    turn, which is read back from it field by field; the reply is the
    fixed completion message; the locale, the cursor and the answers are
    back at their initial values, so the phase is the locale phase; the
    transcript keeps all it had. *)
Theorem final_submission_stored (w : world) (st : session)
    (user_input answer : str) (q : question) :
  phase_of st = AwaitingAnswer ->
  current_question st = Some q ->
  validator (options q) user_input = Valid answer ->
  last_question st ->
  append_row w (strftime (now w) :: data st ++ [answer]) = Stored ->
  handle_turn w st user_input
  = Replied
      {| messages :=
           messages st
           ++ [ {| msg_role := user; content := user_input |};
                {| msg_role := assistant; content := application_received |} ];
         step := step initial_session;
         data := data initial_session;
         lang := lang initial_session |}
      application_received
      [strftime (now w) :: data st ++ [answer]]
  /\ timestamp_format (strftime (now w)) = true
  /\ (valid_datetime (now w) ->
      forall row, In row (rows_of (handle_turn w st user_input)) ->
                  read_timestamp (hd [] row) = Some (now w))
  /\ phase_of (state_of (handle_turn w st user_input)) = AwaitingLocale
  /\ answer = user_input.
Proof.
  intros Hphase Hq Hv Hlast Hsink. apply phase_of_answer in Hphase.
  pose proof (turn_submits w st user_input answer q Hphase Hq Hv
                (proj1 (last_question_iff st) Hlast)) as Hturn.
  cbv zeta in Hturn. rewrite Hsink, exchange_messages in Hturn.
  split; [exact Hturn|]. split; [apply strftime_format|]. split; [|split].
  - intros Hvalid row Hin. rewrite Hturn in Hin. cbn [rows_of In] in Hin.
    destruct Hin as [<- | []]. cbn [hd]. apply read_strftime. exact Hvalid.
  - rewrite Hturn. reflexivity.
  - destruct (last_question_free_text st q Hphase Hq Hlast) as [_ Hfree].
    rewrite Hfree, validator_free_text in Hv. congruence.
Qed.

(** On the last question, as long as no turn is answered by the
    completion message, that is, as long as no row is stored, the cursor
    and the locale stay and every input is added to the answers. *)
Lemma failing_retries (q : question) (turns : list (world * str)) :
  forall st,
    step st <> -1 ->
    current_question st = Some q ->
    last_question st ->
    ~ In application_received (replies (run st turns)) ->
    step (final (run st turns)) = step st
    /\ lang (final (run st turns)) = lang st
    /\ data (final (run st turns)) = data st ++ map snd turns.
Proof.
  induction turns as [|[w' s] turns IH]; intros st Hs Hq Hlast Hfail.
  - cbn. rewrite app_nil_r. auto.
  - destruct (last_question_free_text st q Hs Hq Hlast) as [_ Hfree].
    assert (Hv : validator (options q) s = Valid s)
      by (rewrite Hfree; apply validator_free_text).
    pose proof (turn_submits w' st s s q Hs Hq Hv
                  (proj1 (last_question_iff st) Hlast)) as Hturn.
    cbv zeta in Hturn. cbn [run] in Hfail |- *.
    destruct (append_row w' (strftime (now w') :: data st ++ [s])) eqn:E;
      rewrite Hturn in Hfail |- *; cbn [replies] in Hfail;
      [exfalso; apply Hfail; left; reflexivity|].
    cbn [final map snd].
    match goal with
    | |- context [run ?s1 turns] => set (st1 := s1) in *
    end.
    assert (Hrest : ~ In application_received (replies (run st1 turns)))
      by (intros Hin; apply Hfail; right; exact Hin).
    destruct (IH st1 Hs Hq Hlast Hrest) as [H1 [H2 H3]].
    rewrite H1, H2, H3. cbn [st1 step lang data].
    rewrite <- app_assoc. auto.
Qed.

(** C3, as amended.  When the spreadsheet fails on the last question: the
    reply is the error message followed by the detail of the failure; the
    session is not reset, the locale and the cursor are unchanged, so the
    phase is still the answer phase, and the answers are kept, the one
    just accepted included; and no later turn repeats only the append:
    until a row is stored and the completion message given, the row
    handed over by any later turn is the timestamp, the kept answers and
    every input typed since the failure, never the timestamp followed by
    just the kept answers. *)
Theorem final_submission_failed (w : world) (st : session)
    (user_input answer detail : str) (q : question) :
  phase_of st = AwaitingAnswer ->
  current_question st = Some q ->
  validator (options q) user_input = Valid answer ->
  last_question st ->
  append_row w (strftime (now w) :: data st ++ [answer]) = Failed detail ->
  handle_turn w st user_input
  = Replied
      {| messages :=
           messages st
           ++ [ {| msg_role := user; content := user_input |};
                {| msg_role := assistant;
                   content := lit "Error saving data: " ++ detail |} ];
         step := step st;
         data := data st ++ [answer];
         lang := lang st |}
      (lit "Error saving data: " ++ detail)
      [strftime (now w) :: data st ++ [answer]]
  /\ phase_of (state_of (handle_turn w st user_input)) = AwaitingAnswer
  /\ current_question (state_of (handle_turn w st user_input)) = Some q
  /\ (forall (turns : list (world * str)) w' user_input' st' response rows,
        ~ In application_received
            (replies (run (state_of (handle_turn w st user_input)) turns)) ->
        handle_turn w'
          (final (run (state_of (handle_turn w st user_input)) turns))
          user_input'
        = Replied st' response rows ->
        rows = [strftime (now w')
                :: data st ++ [answer] ++ map snd turns ++ [user_input']]
        /\ forall row, In row rows -> tl row <> data st ++ [answer]).
Proof.
  intros Hphase Hq Hv Hlast Hsink. pose proof Hphase as Hs.
  apply phase_of_answer in Hs.
  pose proof (turn_submits w st user_input answer q Hs Hq Hv
                (proj1 (last_question_iff st) Hlast)) as Hturn.
  cbv zeta in Hturn. rewrite Hsink, exchange_messages in Hturn.
  split; [exact Hturn|]. rewrite Hturn. cbn [state_of].
  split; [exact Hphase|]. split; [exact Hq|].
  intros turns w' user_input' st' response rows Hfail Hnext.
  set (st1 := {| messages :=
                   messages st
                   ++ [ {| msg_role := user; content := user_input |};
                        {| msg_role := assistant;
                           content := lit "Error saving data: " ++ detail |} ];
                 step := step st;
                 data := data st ++ [answer];
                 lang := lang st |}) in *.
  destruct (failing_retries q turns st1 Hs Hq Hlast Hfail) as [E1 [E2 E3]].
  set (st2 := final (run st1 turns)) in *. cbn [st1 step lang data] in E1, E2, E3.
  assert (Hs2 : step st2 <> -1) by congruence.
  assert (Hq2 : current_question st2 = Some q).
  { unfold current_question, q_list_of. rewrite E1, E2. exact Hq. }
  assert (Hlast2 : last_question st2).
  { unfold last_question, q_list_of. rewrite E1, E2. exact Hlast. }
  destruct (last_question_free_text st q Hs Hq Hlast) as [_ Hfree].
  assert (Hv' : validator (options q) user_input' = Valid user_input')
    by (rewrite Hfree; apply validator_free_text).
  pose proof (turn_submits w' st2 user_input' user_input' q Hs2 Hq2 Hv'
                (proj1 (last_question_iff st2) Hlast2)) as Hturn'.
  cbv zeta in Hturn'. rewrite Hturn' in Hnext.
  assert (Hrows : rows = [strftime (now w') :: data st2 ++ [user_input']]).
  { destruct (append_row w' _); injection Hnext as _ _ <-; reflexivity. }
  subst rows. rewrite E3, <- !app_assoc. split; [reflexivity|].
  intros row [<- | []]. cbn [tl].
  intros Heq. apply (f_equal (@length str)) in Heq.
  rewrite !length_app in Heq. cbn [length] in Heq. lia.
Qed.

(** C9. After the spreadsheet failed on the last question, the answer
    just accepted stays among the answers while the cursor stays on the
    last question, so that there is one answer more than the cursor says;
    one more answer to that question is accepted and hands over a row
    again, which holds the timestamp, the answers given before, and both
    answers to the last question: two entries more than there are
    questions. *)
Theorem sink_failure_duplicates_last_answer (w1 w2 : world) (st : session)
    (a1 a2 detail : str) (q : question) :
  phase_of st = AwaitingAnswer ->
  current_question st = Some q ->
  last_question st ->
  Z.of_nat (length (data st)) = step st ->
  append_row w1 (strftime (now w1) :: data st ++ [a1]) = Failed detail ->
  let st1 := state_of (handle_turn w1 st a1) in
  step st1 = step st
  /\ data st1 = data st ++ [a1]
  /\ Z.of_nat (length (data st1)) = step st1 + 1
  /\ (exists st2 response,
        handle_turn w2 st1 a2
        = Replied st2 response [strftime (now w2) :: data st ++ [a1; a2]])
  /\ length (strftime (now w2) :: data st ++ [a1; a2])
     = (length (q_list_of st) + 2)%nat.
Proof.
  intros Hphase Hq Hlast Hlen Hsink st1. pose proof Hphase as Hs.
  apply phase_of_answer in Hs.
  destruct (last_question_free_text st q Hs Hq Hlast) as [H8 Hfree].
  assert (Hv : forall s, validator (options q) s = Valid s)
    by (intros s; rewrite Hfree; apply validator_free_text).
  pose proof (turn_submits w1 st a1 a1 q Hs Hq (Hv a1)
                (proj1 (last_question_iff st) Hlast)) as Hturn.
  cbv zeta in Hturn. rewrite Hsink in Hturn.
  subst st1. rewrite Hturn. cbn [state_of step data].
  split; [reflexivity|]. split; [reflexivity|]. split.
  - rewrite length_app. cbn [length]. lia.
  - split.
    + match goal with
      | |- context [handle_turn w2 ?s a2] => set (st1 := s)
      end.
      pose proof (turn_submits w2 st1 a2 a2 q Hs Hq (Hv a2)
                    (proj1 (last_question_iff st1) Hlast)) as Hturn2.
      cbv zeta in Hturn2. rewrite Hturn2. cbn [data st1].
      rewrite <- app_assoc. cbn [app]. clear Hturn2.
      destruct (append_row w2 (strftime (now w2) :: data st ++ [a1; a2]));
        eexists; eexists; reflexivity.
    + cbn [length]. rewrite length_app, q_list_of_length. cbn [length]. lia.
Qed.

(** C6, as amended.  On a free-text question every input passes the
    validator unchanged.  When a question follows, the input is appended
    to the answers as it is and the cursor moves on by one.  On the last
    question, itself a free-text question, the input is the last entry of
    the row handed over, and the cursor does not move on: it is reset
    with the answers when the row is stored and stays where it is when
    the spreadsheet fails. *)
Theorem free_text_verbatim (w : world) (st : session) (user_input : str)
    (q : question) :
  phase_of st = AwaitingAnswer ->
  current_question st = Some q ->
  options q = None ->
  validator (options q) user_input = Valid user_input
  /\ (~ last_question st ->
      exists q',
        py_index (q_list_of st) (step st + 1) = Some q'
        /\ handle_turn w st user_input
           = Replied
               {| messages :=
                    messages (with_exchange st user_input (prompt q'));
                  step := step st + 1;
                  data := data st ++ [user_input];
                  lang := lang st |}
               (prompt q') [])
  /\ (last_question st ->
      exists st' response,
        handle_turn w st user_input
        = Replied st' response [strftime (now w) :: data st ++ [user_input]]
        /\ match append_row w (strftime (now w) :: data st ++ [user_input]) with
           | Stored => step st' = -1 /\ data st' = []
           | Failed _ => step st' = step st
                         /\ data st' = data st ++ [user_input]
           end).
Proof.
  intros Hphase Hq Hfree. apply phase_of_answer in Hphase.
  assert (Hv : validator (options q) user_input = Valid user_input)
    by (rewrite Hfree; apply validator_free_text).
  split; [exact Hv|]. split.
  - intros Hnot. rewrite last_question_iff in Hnot.
    assert (Hlt : step st + 1 < 9) by lia.
    destruct (table_next _ _ _ (q_list_of_cases st) Hq Hlt) as [q' Hq'].
    exists q'. split; [exact Hq'|].
    apply (turn_advances w st user_input user_input q q'); assumption.
  - intros Hlast.
    pose proof (turn_submits w st user_input user_input q Hphase Hq Hv
                  (proj1 (last_question_iff st) Hlast)) as Hturn.
    cbv zeta in Hturn. rewrite Hturn.
    destruct (append_row w _); eexists; eexists; split;
      try reflexivity; split; reflexivity.
Qed.

End Submission.

(** ** A whole application *)

Lemma skipn_cons_nth {A : Type} (k : nat) (l : list A) (x : A) (r : list A) :
  skipn k l = x :: r -> nth_error l k = Some x /\ skipn (S k) l = r.
Proof.
  revert l. induction k as [|k IH]; intros l H.
  - destruct l as [|y l]; [discriminate|]. simpl in H. injection H as -> ->.
    split; reflexivity.
  - destruct l as [|y l]; [discriminate|]. simpl in H.
    destruct (IH l H) as [H1 H2]. split; assumption.
Qed.

Lemma questions_for_length (l : lang_code) :
  length (questions_for l) = 9%nat.
Proof.
  destruct l; [apply QUESTIONS_ES_length | apply QUESTIONS_EN_length].
Qed.

Lemma q_list_of_lang (st : session) (l : lang_code) :
  lang st = Some l -> q_list_of st = questions_for l.
Proof. intros H. unfold q_list_of. rewrite H. destruct l; reflexivity. Qed.

Section Application.

Context {U : Unicode}.

(** Two runs over the same answers, each with its own clock and
    spreadsheet, from the same session in the answer phase. *)
Lemma run_answers_pair (l : lang_code) (answers : list str) :
  forall (ws1 ws2 : list world) (k : nat) (st : session),
    lang st = Some l ->
    step st = Z.of_nat k ->
    (k < 9)%nat ->
    Forall2 accepted (skipn k (questions_for l)) answers ->
    length ws1 = length answers ->
    length ws2 = length answers ->
    let t1 := run st (combine ws1 answers) in
    let t2 := run st (combine ws2 answers) in
    let w1 := last ws1 accepting_world in
    let w2 := last ws2 accepting_world in
    let collected :=
      data st ++ saved_answers (skipn k (questions_for l)) answers in
    sent t1 = [strftime (now w1) :: collected]
    /\ sent t2 = [strftime (now w2) :: collected]
    /\ aborted t1 = false
    /\ aborted t2 = false
    /\ (exists common r1 r2,
          replies t1 = common ++ [r1] /\ replies t2 = common ++ [r2])
    /\ (append_row w1 (strftime (now w1) :: collected)
        = append_row w2 (strftime (now w2) :: collected) ->
        final t1 = final t2 /\ replies t1 = replies t2).
Proof.
  induction answers as [|a answers IH];
    intros ws1 ws2 k st Hlang Hstep Hk Hacc Hl1 Hl2.
  - exfalso. apply Forall2_length in Hacc.
    rewrite length_skipn, questions_for_length in Hacc.
    cbn [length] in Hacc. lia.
  - inversion Hacc as [|q a' qs' answers' Hq Hrest Hskip]; subst a' answers'.
    symmetry in Hskip. destruct (skipn_cons_nth _ _ _ _ Hskip) as [Hnth Hnext].
    destruct ws1 as [|w1 ws1]; [discriminate|].
    destruct ws2 as [|w2 ws2]; [discriminate|].
    simpl in Hl1, Hl2. injection Hl1 as Hl1. injection Hl2 as Hl2.
    assert (Hs : step st <> -1) by lia.
    assert (Hcur : current_question st = Some q).
    { unfold current_question. rewrite (q_list_of_lang st l Hlang), Hstep.
      rewrite py_index_nonneg by lia. rewrite Nat2Z.id. exact Hnth. }
    unfold accepted in Hq.
    destruct (validator (options q) a) as [s| |] eqn:Hv;
      [clear Hq | contradiction | contradiction].
    cbv zeta. cbn [saved_answers]. rewrite Hv.
    assert (Hqs' : length qs' = (9 - S k)%nat).
    { rewrite <- Hnext, length_skipn, questions_for_length. reflexivity. }
    destruct (Nat.eq_dec (S k) 9) as [Hlast | Hmore].
    + (* the last question: the row is handed over *)
      assert (answers = []).
      { apply Forall2_length in Hrest. rewrite Hqs' in Hrest.
        destruct answers; [reflexivity | cbn [length] in Hrest; lia]. }
      subst answers. destruct ws1; [|discriminate]. destruct ws2; [|discriminate].
      assert (Hnil : qs' = [])
        by (destruct qs'; [reflexivity | cbn [length] in Hqs'; lia]).
      rewrite Hnil.
      assert (Hnot : ~ step st + 1 < 9) by lia.
      pose proof (turn_submits w1 st a s q Hs Hcur Hv Hnot) as H1.
      pose proof (turn_submits w2 st a s q Hs Hcur Hv Hnot) as H2.
      cbv zeta in H1, H2. cbn [combine run last saved_answers].
      rewrite H1, H2.
      destruct (append_row w1 (strftime (now w1) :: data st ++ [s])) eqn:E1;
        destruct (append_row w2 (strftime (now w2) :: data st ++ [s])) eqn:E2;
        cbn [final replies sent aborted app];
        (split; [reflexivity|]); (split; [reflexivity|]);
        (split; [reflexivity|]); (split; [reflexivity|]);
        (split; [exists []; do 2 eexists; split; reflexivity|]);
        intros E; try discriminate E; try (injection E as ->);
        split; reflexivity.
    + (* a question follows: both runs move on to the same session *)
      assert (Hlt : step st + 1 < 9) by lia.
      destruct (table_next _ _ _ (q_list_of_cases st) Hcur Hlt) as [q' Hq'].
      pose proof (turn_advances w1 st a s q q' Hs Hcur Hv Hlt Hq') as H1.
      pose proof (turn_advances w2 st a s q q' Hs Hcur Hv Hlt Hq') as H2.
      cbn [combine run]. rewrite H1, H2.
      set (st' := {| messages := messages (with_exchange st a (prompt q'));
                     step := step st + 1;
                     data := data st ++ [s];
                     lang := lang st |}).
      assert (Hne : answers <> []).
      { apply Forall2_length in Hrest. rewrite Hqs' in Hrest.
        destruct answers; [cbn [length] in Hrest; lia | discriminate]. }
      assert (Hlast1 : last (w1 :: ws1) accepting_world
                       = last ws1 accepting_world).
      { destruct ws1; [|reflexivity]. destruct answers; [congruence|discriminate]. }
      assert (Hlast2 : last (w2 :: ws2) accepting_world
                       = last ws2 accepting_world).
      { destruct ws2; [|reflexivity]. destruct answers; [congruence|discriminate]. }
      rewrite Hlast1, Hlast2.
      assert (Hst' : step st' = Z.of_nat (S k)) by (cbn [st' step]; lia).
      assert (HSk : (S k < 9)%nat) by lia.
      assert (Hrest' : Forall2 accepted (skipn (S k) (questions_for l)) answers)
        by (rewrite Hnext; exact Hrest).
      pose proof (IH ws1 ws2 (S k) st' Hlang Hst' HSk Hrest' Hl1 Hl2) as IH'.
      cbv zeta in IH'. destruct IH' as [E1 [E2 [A1 [A2 [Hc Hf]]]]].
      rewrite Hnext in E1, E2, Hf. cbn [st' data] in E1, E2, Hf.
      rewrite <- app_assoc in E1, E2, Hf. cbn [app] in E1, E2, Hf.
      cbn [final replies sent aborted app].
      repeat split; try assumption.
      * destruct Hc as [common [r1 [r2 [Hr1 Hr2]]]].
        exists (prompt q' :: common), r1, r2.
        rewrite Hr1, Hr2. split; reflexivity.
      * apply Hf. assumption.
      * f_equal. apply Hf. assumption.
Qed.

Lemma saved_answers_length (qs : list question) (answers : list str) :
  Forall2 accepted qs answers ->
  length (saved_answers qs answers) = length qs.
Proof.
  induction 1 as [|q a qs answers Hq Hrest IH]; [reflexivity|].
  cbn [saved_answers]. unfold accepted in Hq.
  destruct (validator (options q) a); [|contradiction|contradiction].
  cbn [length]. rewrite IH. reflexivity.
Qed.

Lemma selected_language_turn (w : world) (l : lang_code) (locale : str) :
  selected_language locale = Some l ->
  handle_turn w initial_session locale
  = Replied
      {| messages :=
           messages
             (with_exchange initial_session locale
                (prompt_at (questions_for l) 0));
         step := 0;
         data := [];
         lang := Some l |}
      (prompt_at (questions_for l) 0) [].
Proof.
  unfold selected_language.
  destruct (spanish_keyword (str_lower locale)) eqn:Hk.
  - intros E. injection E as <-.
    apply (turn_selects_spanish w initial_session locale); [reflexivity|].
    exact Hk.
  - destruct (english_keyword (str_lower locale)) eqn:He; [|discriminate].
    intros E. injection E as <-.
    apply (turn_selects_english w initial_session locale);
      [reflexivity | exact Hk | exact He].
Qed.

(** C8. Two runs of the same inputs, a locale choice followed by nine
    accepted answers, each from the initial session and each with its own
    clocks and spreadsheet, hand over one row each; the two rows hold the
    same answers after their timestamps, the answers being determined by
    the inputs alone; the replies before the last are the same; and when
    the spreadsheets respond alike, the last replies and the final
    sessions are the same as well. *)
Theorem application_determined_by_inputs (l : lang_code) (locale : str)
    (answers : list str) (ws1 ws2 : list world) :
  selected_language locale = Some l ->
  Forall2 accepted (questions_for l) answers ->
  length ws1 = 10%nat ->
  length ws2 = 10%nat ->
  let t1 := run initial_session (combine ws1 (locale :: answers)) in
  let t2 := run initial_session (combine ws2 (locale :: answers)) in
  let w1 := last ws1 accepting_world in
  let w2 := last ws2 accepting_world in
  let collected := saved_answers (questions_for l) answers in
  length collected = 9%nat
  /\ sent t1 = [strftime (now w1) :: collected]
  /\ sent t2 = [strftime (now w2) :: collected]
  /\ aborted t1 = false
  /\ aborted t2 = false
  /\ (exists common r1 r2,
        replies t1 = common ++ [r1] /\ replies t2 = common ++ [r2])
  /\ (append_row w1 (strftime (now w1) :: collected)
      = append_row w2 (strftime (now w2) :: collected) ->
      final t1 = final t2 /\ replies t1 = replies t2).
Proof.
  intros Hsel Hacc Hl1 Hl2.
  pose proof (Forall2_length Hacc) as Hlen.
  rewrite questions_for_length in Hlen.
  destruct ws1 as [|v1 ws1]; [discriminate|].
  destruct ws2 as [|v2 ws2]; [discriminate|].
  cbn [length] in Hl1, Hl2. injection Hl1 as Hl1. injection Hl2 as Hl2.
  assert (Hlast1 : last (v1 :: ws1) accepting_world
                   = last ws1 accepting_world)
    by (destruct ws1; [discriminate | reflexivity]).
  assert (Hlast2 : last (v2 :: ws2) accepting_world
                   = last ws2 accepting_world)
    by (destruct ws2; [discriminate | reflexivity]).
  cbv zeta. rewrite Hlast1, Hlast2. cbn [combine run].
  rewrite (selected_language_turn v1 l locale Hsel).
  rewrite (selected_language_turn v2 l locale Hsel).
  set (st0 := {| messages :=
                   messages
                     (with_exchange initial_session locale
                        (prompt_at (questions_for l) 0));
                 step := 0;
                 data := [];
                 lang := Some l |}).
  assert (Hacc0 : Forall2 accepted (skipn 0 (questions_for l)) answers)
    by exact Hacc.
  assert (H9 : (0 < 9)%nat) by lia.
  assert (Hw1 : length ws1 = length answers) by congruence.
  assert (Hw2 : length ws2 = length answers) by congruence.
  pose proof (run_answers_pair l answers ws1 ws2 0 st0 eq_refl eq_refl H9
                Hacc0 Hw1 Hw2) as H.
  cbv zeta in H. cbn [skipn st0 data app] in H.
  destruct H as [E1 [E2 [A1 [A2 [Hc Hf]]]]].
  cbn [final replies sent aborted app].
  split; [rewrite (saved_answers_length _ _ Hacc); apply questions_for_length|].
  repeat split; try assumption.
  - destruct Hc as [common [r1 [r2 [Hr1 Hr2]]]].
    exists (prompt_at (questions_for l) 0 :: common), r1, r2.
    rewrite Hr1, Hr2. split; reflexivity.
  - apply Hf. assumption.
  - f_equal. apply Hf. assumption.
Qed.

End Application.

(** * The claims at concrete inputs *)



Lemma locale_phase_classifier_witness :
  lang (state_of (@handle_turn ascii_unicode accepting_world initial_session
                    (lit "English"))) = Some en
  /\ step (state_of (@handle_turn ascii_unicode accepting_world
                       initial_session (lit "English"))) = 0.
Proof.
  destruct (@locale_phase_classifier ascii_unicode accepting_world
              initial_session (lit "English"))
    as [_ [H _]].
  - reflexivity.
  - destruct H as [H _]; [reflexivity | reflexivity |].
    rewrite H. split; reflexivity.
Defined.

Lemma spanish_keyword_first_witness :
  lang (state_of (@handle_turn ascii_unicode accepting_world initial_session
                    (lit "Spanish or English"))) = Some es.
Proof.
  apply (@spanish_keyword_first ascii_unicode accepting_world initial_session
           (lit "Spanish or English")); reflexivity.
Defined.

Lemma final_submission_stored_witness :
  (exists st',
     @handle_turn ascii_unicode accepting_world last_question_session
       (lit "next Monday")
     = Replied st' application_received
         [lit "2025-03-09 14:05:07"
          :: data last_question_session ++ [lit "next Monday"]]
     /\ step st' = -1 /\ data st' = [] /\ lang st' = None)
  /\ (exists st',
        @handle_turn ascii_unicode later_world last_question_session
          (lit "next Monday")
        = Replied st' application_received
            [lit "2025-11-30 08:00:59"
             :: data last_question_session ++ [lit "next Monday"]])
  /\ read_timestamp (lit "2025-11-30 08:00:59") = Some (now later_world).
Proof.
  destruct (@final_submission_stored ascii_unicode accepting_world
              last_question_session (lit "next Monday") (lit "next Monday")
              (question_at QUESTIONS_EN 8))
    as [H1 _].
  - reflexivity.
  - reflexivity.
  - reflexivity.
  - unfold last_question. rewrite q_list_of_length. cbn. lia.
  - reflexivity.
  - destruct (@final_submission_stored ascii_unicode later_world
                last_question_session (lit "next Monday") (lit "next Monday")
                (question_at QUESTIONS_EN 8))
      as [H2 [_ [R _]]].
    + reflexivity.
    + reflexivity.
    + reflexivity.
    + unfold last_question. rewrite q_list_of_length. cbn. lia.
    + reflexivity.
    + split; [eexists; split; [exact H1 | repeat split]|].
      split; [eexists; exact H2|].
      assert (V : valid_datetime (now later_world))
        by (unfold valid_datetime; cbn; lia).
      apply (R V (lit "2025-11-30 08:00:59"
                  :: data last_question_session ++ [lit "next Monday"])).
      rewrite H2. left. reflexivity.
Defined.

Lemma final_submission_failed_witness :
  exists st',
    @handle_turn ascii_unicode failing_world last_question_session
      (lit "next Monday")
    = Replied st' (lit "Error saving data: " ++ lit "APIError: quota exceeded")
        [lit "2025-03-09 14:05:07"
         :: data last_question_session ++ [lit "next Monday"]]
    /\ step st' = 8
    /\ data st' = data last_question_session ++ [lit "next Monday"]
    /\ lang st' = Some en.
Proof.
  destruct (@final_submission_failed ascii_unicode failing_world
              last_question_session (lit "next Monday") (lit "next Monday")
              (lit "APIError: quota exceeded") (question_at QUESTIONS_EN 8))
    as [H _].
  - reflexivity.
  - reflexivity.
  - reflexivity.
  - unfold last_question. rewrite q_list_of_length. cbn. lia.
  - reflexivity.
  - eexists. split; [exact H|]. repeat split.
Defined.

Lemma sink_failure_duplicates_last_answer_witness :
  exists st2 response,
    @handle_turn ascii_unicode accepting_world
      (state_of (@handle_turn ascii_unicode failing_world
                   last_question_session (lit "next Monday")))
      (lit "Monday, I said")
    = Replied st2 response
        [lit "2025-03-09 14:05:07"
         :: data last_question_session
            ++ [lit "next Monday"; lit "Monday, I said"]].
Proof.
  destruct (@sink_failure_duplicates_last_answer ascii_unicode failing_world
              accepting_world last_question_session (lit "next Monday")
              (lit "Monday, I said") (lit "APIError: quota exceeded")
              (question_at QUESTIONS_EN 8))
    as [_ [_ [_ [H _]]]].
  - reflexivity.
  - reflexivity.
  - unfold last_question. rewrite q_list_of_length. cbn. lia.
  - reflexivity.
  - reflexivity.
  - exact H.
Defined.

Lemma free_text_verbatim_witness :
  exists st' response,
    @handle_turn ascii_unicode accepting_world last_question_session
      (lit "  next Monday ")
    = Replied st' response
        [lit "2025-03-09 14:05:07"
         :: data last_question_session ++ [lit "  next Monday "]].
Proof.
  destruct (@free_text_verbatim ascii_unicode accepting_world
              last_question_session (lit "  next Monday ")
              (question_at QUESTIONS_EN 8))
    as [_ [_ H]].
  - reflexivity.
  - reflexivity.
  - reflexivity.
  - destruct H as [st' [response [H _]]].
    + unfold last_question. rewrite q_list_of_length. cbn. lia.
    + exists st', response. exact H.
Defined.

Lemma application_determined_by_inputs_witness :
  sent (@run ascii_unicode initial_session
          (combine (repeat accepting_world 10) (lit "English" :: sample_answers)))
  = [lit "2025-03-09 14:05:07"
     :: [lit "Alex"; lit "Doe"; lit "555-0100"; lit "Server";
         lit "Line cook, Server"; lit "AM, PM"; lit "Bilingual";
         lit "Own transportation"; lit "next Monday"]]
  /\ sent (@run ascii_unicode initial_session
             (combine (repeat later_world 10) (lit "English" :: sample_answers)))
     = [lit "2025-11-30 08:00:59"
        :: [lit "Alex"; lit "Doe"; lit "555-0100"; lit "Server";
            lit "Line cook, Server"; lit "AM, PM"; lit "Bilingual";
            lit "Own transportation"; lit "next Monday"]].
Proof.
  destruct (@application_determined_by_inputs ascii_unicode en (lit "English")
              sample_answers (repeat accepting_world 10)
              (repeat later_world 10))
    as [_ [H1 [H2 _]]].
  - reflexivity.
  - repeat constructor; unfold accepted; vm_compute; exact I.
  - reflexivity.
  - reflexivity.
  - split; [exact H1 | exact H2].
Defined.

(** ** Where claims fail as they are stated *)



(** C6 as stated fails on the last question, which is a free-text
    question: with eight answers collected and a spreadsheet that stores
    the row, the cursor does not become 9 and the answers do not become
    the eight answers followed by the input; the session is reset. *)
Lemma free_text_last_question_counterexample :
  let st := last_question_session in
  let user_input := lit "  next Monday " in
  let st' :=
    state_of (@handle_turn ascii_unicode accepting_world st user_input) in
  phase_of st = AwaitingAnswer
  /\ option_map options (current_question st) = Some None
  /\ step st' = -1
  /\ step st' <> step st + 1
  /\ data st' = []
  /\ data st' <> data st ++ [user_input].
Proof.
  cbv zeta. repeat split; try reflexivity; vm_compute; discriminate.
Qed.

(** C3 as stated fails: after the spreadsheet failed on the last question
    the answers are not what they were before the turn, and one more
    input, not nine, is enough for the next row to be handed over. *)
Lemma sink_failure_retry_counterexample :
  let st := last_question_session in
  let st1 :=
    state_of (@handle_turn ascii_unicode failing_world st (lit "next Monday")) in
  step st1 = step st
  /\ data st1 <> data st
  /\ (exists st2 response row,
        @handle_turn ascii_unicode accepting_world st1 (lit "next Monday")
        = Replied st2 response [row]
        /\ length row = 11%nat)
  /\ ~ (forall turns : list (world * str),
          (length turns < length QUESTIONS_EN)%nat ->
          sent (@run ascii_unicode st1 turns) = []).
Proof.
  cbv zeta. split; [reflexivity|]. split; [vm_compute; discriminate|]. split.
  - do 3 eexists. split; [vm_compute; reflexivity | reflexivity].
  - intros H.
    specialize (H [(accepting_world, lit "next Monday")]).
    rewrite QUESTIONS_EN_length in H.
    assert (Hlt : (length [(accepting_world, lit "next Monday")] < 9)%nat)
      by (cbn [length]; lia).
    specialize (H Hlt). vm_compute in H. discriminate H.
Qed.

(** * Further properties of the handler *)

Section Paths.

Context {U : Unicode}.

Lemma turn_raises (w : world) (st : session) (user_input : str) :
  step st <> -1 ->
  current_question st = None ->
  handle_turn w st user_input = Raised (append_message user user_input st).
Proof.
  intros Hs Hq. rewrite handle_turn_answer by assumption.
  unfold answer_question. cbn [append_message lang step].
  change (match lang st with
          | Some es => QUESTIONS_ES
          | _ => QUESTIONS_EN
          end) with (q_list_of st).
  change (py_index (q_list_of st) (step st)) with (current_question st).
  rewrite Hq. reflexivity.
Qed.

Lemma exchange_is_with_exchange (st : session) (user_input response : str) :
  messages (with_exchange st user_input response)
  = messages st ++ exchange user_input response.
Proof. apply exchange_messages. Qed.

Lemma with_exchange_record (st : session) (user_input response : str) :
  with_exchange st user_input response
  = {| messages := messages st ++ exchange user_input response;
       step := step st;
       data := data st;
       lang := lang st |}.
Proof.
  unfold with_exchange, append_message, exchange. cbn.
  rewrite <- app_assoc. reflexivity.
Qed.

(** Every turn takes exactly one of the paths of [transition]. *)
Lemma handle_turn_transition (w : world) (st : session) (user_input : str) :
  transition w st user_input (handle_turn w st user_input).
Proof.
  destruct (Z.eq_dec (step st) (-1)) as [Hs | Hs].
  - destruct (selected_language user_input) as [l|] eqn:Hsel.
    + pose proof Hsel as Hsel'. unfold selected_language in Hsel'.
      destruct (spanish_keyword (str_lower user_input)) eqn:Hk.
      * injection Hsel' as <-.
        rewrite (turn_selects_spanish w st user_input Hs Hk).
        rewrite exchange_is_with_exchange.
        apply (selects w st user_input es Hs Hsel).
      * destruct (english_keyword (str_lower user_input)) eqn:He;
          [|discriminate].
        injection Hsel' as <-.
        rewrite (turn_selects_english w st user_input Hs Hk He).
        rewrite exchange_is_with_exchange.
        apply (selects w st user_input en Hs Hsel).
    + pose proof Hsel as Hsel'. unfold selected_language in Hsel'.
      destruct (spanish_keyword (str_lower user_input)) eqn:Hk;
        [discriminate|].
      destruct (english_keyword (str_lower user_input)) eqn:He;
        [discriminate|].
      rewrite (turn_reprompts w st user_input Hs Hk He).
      rewrite with_exchange_record.
      apply (reprompts w st user_input Hs Hsel).
  - destruct (current_question st) as [q|] eqn:Hq.
    + destruct (validator (options q) user_input) as [a| |] eqn:Hv.
      * destruct (Z_lt_dec (step st + 1) 9) as [Hlt | Hge].
        -- destruct (table_next _ _ _ (q_list_of_cases st) Hq Hlt)
             as [q' Hq'].
           rewrite (turn_advances w st user_input a q q' Hs Hq Hv Hlt Hq').
           rewrite exchange_is_with_exchange.
           apply (advances w st user_input q q' a); assumption.
        -- pose proof (turn_submits w st user_input a q Hs Hq Hv Hge) as H.
           cbv zeta in H. rewrite H.
           destruct (append_row w (strftime (now w) :: data st ++ [a]))
             eqn:Hsink; rewrite exchange_is_with_exchange.
           ++ apply (stores w st user_input q a); assumption.
           ++ apply (fails w st user_input q a detail); assumption.
      * rewrite (turn_rejected w st user_input q Hs Hq Hv).
        rewrite with_exchange_record.
        apply (rejects w st user_input q); assumption.
      * rewrite (turn_overflows w st user_input q Hs Hq Hv).
        apply (overflows w st user_input q); assumption.
    + rewrite (turn_raises w st user_input Hs Hq).
      apply (raises w st user_input); assumption.
Qed.

Lemma selected_language_spanish (user_input : str) :
  selected_language user_input = Some es <->
  spanish_keyword (str_lower user_input) = true.
Proof.
  unfold selected_language.
  destruct (spanish_keyword (str_lower user_input));
    destruct (english_keyword (str_lower user_input));
    split; intros H; congruence.
Qed.

Lemma selected_language_english (user_input : str) :
  selected_language user_input = Some en <->
  spanish_keyword (str_lower user_input) = false
  /\ english_keyword (str_lower user_input) = true.
Proof.
  unfold selected_language.
  destruct (spanish_keyword (str_lower user_input));
    destruct (english_keyword (str_lower user_input));
    split; intros H; try congruence; try (split; congruence);
    destruct H; congruence.
Qed.

Lemma selected_language_none (user_input : str) :
  selected_language user_input = None <->
  spanish_keyword (str_lower user_input) = false
  /\ english_keyword (str_lower user_input) = false.
Proof.
  unfold selected_language.
  destruct (spanish_keyword (str_lower user_input));
    destruct (english_keyword (str_lower user_input));
    split; intros H; try congruence; try (split; congruence);
    destruct H; congruence.
Qed.

(** A path of [transition] is the path that the handler takes. *)
Lemma transition_sound (w : world) (st : session) (user_input : str)
    (o : outcome) :
  transition w st user_input o -> handle_turn w st user_input = o.
Proof.
  intros T. destruct T as [l Hs Hsel | Hs Hsel | Hs Hq | q Hs Hq Hv
                          | q Hs Hq Hv
                          | q q' a Hs Hq Hv Hlt Hq' | q a Hs Hq Hv Hge Hsink
                          | q a e Hs Hq Hv Hge Hsink].
  - destruct l.
    + apply selected_language_spanish in Hsel.
      rewrite (turn_selects_spanish w st user_input Hs Hsel).
      rewrite exchange_is_with_exchange. reflexivity.
    + apply selected_language_english in Hsel. destruct Hsel as [Hk He].
      rewrite (turn_selects_english w st user_input Hs Hk He).
      rewrite exchange_is_with_exchange. reflexivity.
  - apply selected_language_none in Hsel. destruct Hsel as [Hk He].
    rewrite (turn_reprompts w st user_input Hs Hk He).
    rewrite with_exchange_record. reflexivity.
  - apply turn_raises; assumption.
  - apply (turn_overflows w st user_input q); assumption.
  - rewrite (turn_rejected w st user_input q Hs Hq Hv).
    rewrite with_exchange_record. reflexivity.
  - rewrite (turn_advances w st user_input a q q' Hs Hq Hv Hlt Hq').
    rewrite exchange_is_with_exchange. reflexivity.
  - pose proof (turn_submits w st user_input a q Hs Hq Hv Hge) as H.
    cbv zeta in H. rewrite Hsink in H. rewrite H.
    rewrite exchange_is_with_exchange. reflexivity.
  - pose proof (turn_submits w st user_input a q Hs Hq Hv Hge) as H.
    cbv zeta in H. rewrite Hsink in H. rewrite H.
    rewrite exchange_is_with_exchange. reflexivity.
Qed.

Lemma well_formed_question (st : session) :
  well_formed st -> step st <> -1 -> current_question st <> None.
Proof.
  intros [[Hs _] | [Hs _]] Hne; [congruence|].
  destruct (py_index_in_range (q_list_of st) (step st)) as [q Hq].
  - rewrite q_list_of_length. lia.
  - unfold current_question. rewrite Hq. discriminate.
Qed.

(** A turn leaves a well-formed session well formed, whether it replies
    or raises. *)
Lemma well_formed_turn (w : world) (st : session) (user_input : str) :
  well_formed st -> well_formed (state_of (handle_turn w st user_input)).
Proof.
  intros Hwf. pose proof (handle_turn_transition w st user_input) as T.
  destruct T as [l Hs Hsel | Hs Hsel | Hs Hq | q Hs Hq Hv | q Hs Hq Hv
                | q q' a Hs Hq Hv Hlt Hq' | q a Hs Hq Hv Hge Hsink
                | q a e Hs Hq Hv Hge Hsink]; cbn [state_of].
  - destruct Hwf as [[_ [Hd _]] | [H0 _]]; [|lia].
    right. cbn [step data lang]. rewrite Hd. cbn [length].
    repeat split; try lia. discriminate.
  - exact Hwf.
  - exact Hwf.
  - exact Hwf.
  - exact Hwf.
  - destruct Hwf as [[H1 _] | [H0 [Hl [Hle Heq]]]]; [congruence|].
    right. cbn [step data lang]. rewrite length_app. cbn [length].
    repeat split; try assumption; lia.
  - left. repeat split.
  - destruct Hwf as [[H1 _] | [H0 [Hl [Hle Heq]]]]; [congruence|].
    right. cbn [step data lang]. rewrite length_app. cbn [length].
    repeat split; try assumption; lia.
Qed.

(** From a well-formed session a turn raises exactly when the current
    question has options and the input has a run of digits longer than
    [int] converts. *)
Lemma well_formed_raises (w : world) (st : session) (user_input : str) :
  well_formed st ->
  (exists st', handle_turn w st user_input = Raised st') <->
  (exists q, step st <> -1 /\ current_question st = Some q
             /\ truthy (options q) = true
             /\ within_int_limit user_input = false).
Proof.
  intros Hwf. pose proof (handle_turn_transition w st user_input) as T.
  split.
  - intros [st' H]. rewrite H in T. inversion T; subst.
    + exfalso. apply (well_formed_question st Hwf); assumption.
    + match goal with
      | Hv : validator _ _ = ValueError |- _ =>
          apply validator_raises in Hv; destruct Hv as [Ht Hl]
      end.
      eauto.
  - intros [q [Hs [Hq [Ht Hl]]]].
    exists (append_message user user_input st).
    apply (turn_overflows w st user_input q Hs Hq).
    apply validator_raises. auto.
Qed.

Lemma well_formed_replies (w : world) (st : session) (user_input : str) :
  well_formed st ->
  within_int_limit user_input = true ->
  exists st' response rows,
    handle_turn w st user_input = Replied st' response rows.
Proof.
  intros Hwf Hlim.
  destruct (handle_turn w st user_input) as [st' response rows | st'] eqn:H;
    [eauto|].
  destruct (proj1 (well_formed_raises w st user_input Hwf)
              (ex_intro _ st' H)) as [q [_ [_ [_ Hl]]]].
  congruence.
Qed.

Lemma well_formed_run (st : session) (turns : list (world * str)) :
  well_formed st -> well_formed (final (run st turns)).
Proof.
  revert st. induction turns as [|[w user_input] turns IH]; intros st Hwf.
  - exact Hwf.
  - pose proof (well_formed_turn w st user_input Hwf) as Hwf'.
    cbn [run].
    destruct (handle_turn w st user_input) as [st' response rows | st'];
      cbn [state_of final] in *; apply IH; exact Hwf'.
Qed.

(** When [int] converts every run of digits typed, no turn raises and
    every input gets its reply. *)
Lemma run_within_limit (turns : list (world * str)) :
  forall st,
    well_formed st ->
    Forall (fun t => within_int_limit (snd t) = true) turns ->
    aborted (run st turns) = false
    /\ length (replies (run st turns)) = length turns.
Proof.
  induction turns as [|[w user_input] turns IH]; intros st Hwf Hlim.
  - split; reflexivity.
  - inversion Hlim as [|t ts Hl Hrest]; subst. cbn [snd] in Hl.
    destruct (well_formed_replies w st user_input Hwf Hl)
      as [st' [response [rows H]]].
    pose proof (well_formed_turn w st user_input Hwf) as Hwf'.
    rewrite H in Hwf'. cbn [state_of] in Hwf'.
    cbn [run]. rewrite H. cbn [aborted replies length].
    destruct (IH st' Hwf' Hrest) as [Ha Hr]. rewrite Ha, Hr. auto.
Qed.

Lemma well_formed_initial : well_formed initial_session.
Proof. left. repeat split. Qed.

(** X1. A conversation that starts in the initial session never hits the
    [IndexError] of [q_list[step]], whatever is typed and whatever the
    clock and the spreadsheet do: it always leaves a session of the
    expected shape (reset, or with the cursor on one of the nine
    questions, a locale chosen and an answer for every question before
    the cursor), and from such a session a turn raises exactly when the
    current question has options and the input has a run of digits longer
    than [int] converts.  When no input has such a run, no turn raises
    and every input gets its reply. *)
Theorem conversation_raises_only_on_long_numbers
    (turns : list (world * str)) :
  well_formed (final (run initial_session turns))
  /\ (forall w user_input,
        (exists st',
           handle_turn w (final (run initial_session turns)) user_input
           = Raised st') <->
        (exists q,
           step (final (run initial_session turns)) <> -1
           /\ current_question (final (run initial_session turns)) = Some q
           /\ truthy (options q) = true
           /\ within_int_limit user_input = false))
  /\ (Forall (fun t => within_int_limit (snd t) = true) turns ->
      aborted (run initial_session turns) = false
      /\ length (replies (run initial_session turns)) = length turns).
Proof.
  pose proof (well_formed_run initial_session turns well_formed_initial)
    as Hwf.
  split; [exact Hwf|]. split.
  - intros w user_input. apply well_formed_raises. exact Hwf.
  - apply run_within_limit. exact well_formed_initial.
Qed.

End Paths.

Section Transcript.

Context {U : Unicode}.



Lemma replied_messages (w : world) (st st' : session)
    (user_input response : str) (rows : list (list str)) :
  handle_turn w st user_input = Replied st' response rows ->
  messages st' = messages st ++ exchange user_input response.
Proof.
  intros H. pose proof (handle_turn_transition w st user_input) as T.
  rewrite H in T. inversion T; subst; reflexivity.
Qed.

Lemma run_transcript (turns : list (world * str)) :
  forall st,
    aborted (run st turns) = false ->
    messages (final (run st turns))
    = messages st ++ transcript_of (map snd turns) (replies (run st turns)).
Proof.
  induction turns as [|[w user_input] turns IH]; intros st Ha.
  - cbn. rewrite app_nil_r. reflexivity.
  - cbn [run] in *.
    destruct (handle_turn w st user_input) as [st' response rows | st'] eqn:H;
      [|discriminate Ha].
    cbn [final replies aborted map snd transcript_of] in *.
    rewrite (IH st' Ha), (replied_messages w st st' user_input response rows H).
    rewrite <- app_assoc. reflexivity.
Qed.

Lemma entries_of_app (r : role) (a b : list message) :
  entries_of r (a ++ b) = entries_of r a ++ entries_of r b.
Proof. unfold entries_of. rewrite filter_app, map_app. reflexivity. Qed.

(** Whether or not turns raise, the user's entries are the inputs and the
    assistant's entries are the replies given. *)
Lemma run_entries (turns : list (world * str)) :
  forall st,
    entries_of user (messages (final (run st turns)))
    = entries_of user (messages st) ++ map snd turns
    /\ entries_of assistant (messages (final (run st turns)))
       = entries_of assistant (messages st) ++ replies (run st turns).
Proof.
  induction turns as [|[w user_input] turns IH]; intros st.
  - cbn. rewrite !app_nil_r. auto.
  - cbn [run].
    destruct (handle_turn w st user_input) as [st' response rows | st'] eqn:H;
      cbn [final replies map snd]; destruct (IH st') as [E1 E2];
      rewrite E1, E2.
    + rewrite (replied_messages w st st' user_input response rows H).
      rewrite !entries_of_app. unfold exchange, entries_of at 2 5.
      cbn [filter map msg_role content app]. rewrite <- !app_assoc.
      split; reflexivity.
    + assert (Hst : st' = append_message user user_input st).
      { pose proof (handle_turn_transition w st user_input) as T.
        rewrite H in T. inversion T; subst; reflexivity. }
      rewrite Hst. cbn [append_message messages].
      rewrite !entries_of_app. unfold entries_of at 2 5.
      cbn [filter map msg_role content app]. rewrite <- ?app_assoc, ?app_nil_r.
      split; reflexivity.
Qed.

(** X3. The transcript records the conversation: after any number of
    turns from the initial session, the user's entries are the inputs as
    typed, in their order, and the assistant's entries are the greeting
    and the replies given, in their order, whether or not a turn raised.
    When no input has a run of digits longer than [int] converts, the
    transcript is the greeting followed, turn by turn, by the input and
    the reply given to it. *)
Theorem transcript_records_conversation (turns : list (world * str)) :
  entries_of user (messages (final (run initial_session turns)))
  = map snd turns
  /\ entries_of assistant (messages (final (run initial_session turns)))
     = entries_of assistant (messages initial_session)
       ++ replies (run initial_session turns)
  /\ (Forall (fun t => within_int_limit (snd t) = true) turns ->
      messages (final (run initial_session turns))
      = messages initial_session
        ++ transcript_of (map snd turns) (replies (run initial_session turns))
      /\ length (messages (final (run initial_session turns)))
         = (1 + 2 * length turns)%nat).
Proof.
  destruct (run_entries turns initial_session) as [E1 E2].
  split; [exact E1|]. split; [exact E2|]. intros Hlim.
  destruct (run_within_limit turns initial_session well_formed_initial Hlim)
    as [Ha Hlen].
  pose proof (run_transcript turns initial_session Ha) as H.
  split; [exact H|]. rewrite H, length_app.
  cbn [messages initial_session length]. f_equal.
  clear H E1 E2 Hlim. revert Ha Hlen.
  generalize initial_session as st.
  induction turns as [|[w user_input] turns IH]; intros st Ha Hlen.
  - reflexivity.
  - cbn [run] in *.
    destruct (handle_turn w st user_input) as [st' response rows | st'] eqn:H;
      [|discriminate Ha].
    cbn [final replies aborted map snd transcript_of length app exchange] in *.
    rewrite (IH st' Ha) by lia. lia.
Qed.

End Transcript.

Section Progress.

Context {U : Unicode}.


(** The answer accepted on the last question is the input as typed. *)
Lemma last_answer_verbatim (st : session) (q : question)
    (user_input answer : str) :
  step st <> -1 ->
  current_question st = Some q ->
  ~ step st + 1 < 9 ->
  validator (options q) user_input = Valid answer ->
  step st = 8 /\ answer = user_input.
Proof.
  intros Hs Hq Hge Hv.
  destruct (table_last _ _ _ (q_list_of_cases st) Hq Hs Hge) as [H8 Hfree].
  rewrite Hfree, validator_free_text in Hv. injection Hv as <-.
  split; [assumption | reflexivity].
Qed.

(** X5. A row is handed to the spreadsheet only by a turn whose cursor is
    on the last question, and then it is a single row: the timestamp of
    that turn's clock, in the shape YYYY-MM-DD HH:MM:SS, the answers
    collected so far, and the input exactly as typed. *)
Theorem rows_only_on_last_question (w : world) (st st' : session)
    (user_input response : str) (rows : list (list str)) :
  handle_turn w st user_input = Replied st' response rows ->
  rows = []
  \/ (step st = 8
      /\ rows = [strftime (now w) :: data st ++ [user_input]]
      /\ timestamp_format (strftime (now w)) = true).
Proof.
  intros H. pose proof (handle_turn_transition w st user_input) as T.
  rewrite H in T. inversion T; subst; auto; right.
  - match goal with
    | Hs : step st <> -1, Hq : current_question st = Some ?q,
      Hge : ~ step st + 1 < 9, Hv : validator _ _ = Valid _ |- _ =>
        destruct (last_answer_verbatim st q _ _ Hs Hq Hge Hv) as [H8 ->]
    end.
    repeat split; [assumption | apply strftime_format].
  - match goal with
    | Hs : step st <> -1, Hq : current_question st = Some ?q,
      Hge : ~ step st + 1 < 9, Hv : validator _ _ = Valid _ |- _ =>
        destruct (last_answer_verbatim st q _ _ Hs Hq Hge Hv) as [H8 ->]
    end.
    repeat split; [assumption | apply strftime_format].
Qed.


Lemma well_formed_rows (w : world) (st st' : session)
    (user_input response : str) (rows : list (list str)) :
  well_formed st ->
  handle_turn w st user_input = Replied st' response rows ->
  Forall (fun row => (10 <= length row)%nat
                     /\ timestamp_format (hd [] row) = true) rows.
Proof.
  intros Hwf H. pose proof (handle_turn_transition w st user_input) as T.
  rewrite H in T. inversion T; subst; try solve [constructor];
    (constructor; [|constructor]);
    cbn [hd length]; (split; [|apply strftime_format]);
    match goal with
    | Hs : step st <> -1, Hq : current_question st = Some ?q,
      Hge : ~ step st + 1 < 9, Hv : validator _ _ = Valid _ |- _ =>
        destruct (last_answer_verbatim st q _ _ Hs Hq Hge Hv) as [H8 _]
    end;
    rewrite length_app; cbn [length];
    destruct Hwf as [[Hs' _] | [_ [_ [Hle _]]]]; lia.
Qed.

Lemma matching_turn (w : world) (st st' : session)
    (user_input response : str) (rows : list (list str)) :
  answers_match_cursor st ->
  (forall row, append_row w row = Stored) ->
  handle_turn w st user_input = Replied st' response rows ->
  answers_match_cursor st'
  /\ Forall (fun row => length row = 10%nat) rows.
Proof.
  intros Hm Hsink H. pose proof (handle_turn_transition w st user_input) as T.
  rewrite H in T. inversion T; subst.
  - split; [|constructor].
    destruct Hm as [[_ [Hd _]] | [H0 _]]; [|lia].
    right. cbn [step data lang]. rewrite Hd. cbn [length].
    repeat split; try lia. discriminate.
  - split; [exact Hm | constructor].
  - split; [exact Hm | constructor].
  - split; [|constructor].
    destruct Hm as [[H1 _] | [H0 [Hl Heq]]]; [congruence|].
    right. cbn [step data lang]. rewrite length_app. cbn [length].
    repeat split; try assumption; lia.
  - split; [left; repeat split|]. constructor; [|constructor].
    cbn [length]. rewrite length_app. cbn [length].
    destruct Hm as [[H1 _] | [H0 [Hl Heq]]]; [congruence|]. lia.
  - match goal with
    | Hf : append_row w _ = Failed _ |- _ => rewrite Hsink in Hf; discriminate
    end.
Qed.

Lemma answers_match_well_formed (st : session) :
  answers_match_cursor st -> well_formed st.
Proof.
  intros [H | [H0 [Hl Heq]]]; [left; exact H|].
  right. repeat split; try assumption; lia.
Qed.

(** X7. Every row handed over in a conversation that starts in the
    initial session begins with a timestamp and has an answer for each of
    the nine questions, so at least ten entries; it has exactly ten when
    the spreadsheet never fails. *)
Theorem rows_hold_all_answers (turns : list (world * str)) :
  Forall (fun row => (10 <= length row)%nat
                     /\ timestamp_format (hd [] row) = true)
    (sent (run initial_session turns))
  /\ (Forall (fun t => forall row, append_row (fst t) row = Stored) turns ->
      Forall (fun row => length row = 10%nat)
        (sent (run initial_session turns))).
Proof.
  split.
  - generalize well_formed_initial. generalize initial_session as st.
    induction turns as [|[w user_input] turns IH]; intros st Hwf.
    + constructor.
    + pose proof (well_formed_turn w st user_input Hwf) as Hwf'.
      cbn [run].
      destruct (handle_turn w st user_input)
        as [st' response rows | st'] eqn:H; cbn [state_of sent] in *.
      * apply Forall_app. split.
        -- apply (well_formed_rows w st st' user_input response rows Hwf H).
        -- apply IH. exact Hwf'.
      * apply IH. exact Hwf'.
  - assert (Hm : answers_match_cursor initial_session)
      by (left; repeat split).
    revert Hm. generalize initial_session as st.
    induction turns as [|[w user_input] turns IH]; intros st Hm Hsinks.
    + constructor.
    + inversion Hsinks as [|t ts Hw Hrest]; subst. cbn [fst] in Hw.
      cbn [run].
      destruct (handle_turn w st user_input)
        as [st' response rows | st'] eqn:H; cbn [sent].
      * destruct (matching_turn w st st' user_input response rows Hm Hw H)
          as [Hm' Hrows].
        apply Forall_app. split; [exact Hrows | apply IH; assumption].
      * apply IH; [|assumption].
        assert (Hst : st' = append_message user user_input st).
        { pose proof (handle_turn_transition w st user_input) as T.
          rewrite H in T. inversion T; subst; reflexivity. }
        rewrite Hst. exact Hm.
Qed.

End Progress.

Section Sequence.

Context {U : Unicode}.

(** A run over two lists of turns is the run over the first followed by
    the run over the second. *)
Lemma run_app (t1 t2 : list (world * str)) :
  forall st,
    aborted (run st t1) = false ->
    final (run st (t1 ++ t2)) = final (run (final (run st t1)) t2)
    /\ replies (run st (t1 ++ t2))
       = replies (run st t1) ++ replies (run (final (run st t1)) t2)
    /\ sent (run st (t1 ++ t2))
       = sent (run st t1) ++ sent (run (final (run st t1)) t2)
    /\ aborted (run st (t1 ++ t2)) = aborted (run (final (run st t1)) t2).
Proof.
  induction t1 as [|[w user_input] t1 IH]; intros st Ha.
  - cbn. auto.
  - cbn [run app] in *.
    destruct (handle_turn w st user_input) as [st' response rows | st'];
      [|discriminate Ha].
    cbn [final replies sent aborted] in *.
    destruct (IH st' Ha) as [H1 [H2 [H3 H4]]].
    rewrite H1, H2, H3, H4, <- app_assoc. auto.
Qed.

(** The answers of an application whose last row is stored. *)
Lemma run_answers_stored (l : lang_code) (answers : list str) :
  forall (ws : list world) (k : nat) (st : session),
    lang st = Some l ->
    step st = Z.of_nat k ->
    (k < 9)%nat ->
    Forall2 accepted (skipn k (questions_for l)) answers ->
    length ws = length answers ->
    (forall row, append_row (last ws accepting_world) row = Stored) ->
    sent (run st (combine ws answers))
    = [strftime (now (last ws accepting_world))
       :: data st ++ saved_answers (skipn k (questions_for l)) answers]
    /\ aborted (run st (combine ws answers)) = false
    /\ step (final (run st (combine ws answers))) = -1
    /\ data (final (run st (combine ws answers))) = []
    /\ lang (final (run st (combine ws answers))) = None.
Proof.
  induction answers as [|a answers IH];
    intros ws k st Hlang Hstep Hk Hacc Hl Hsink.
  - exfalso. apply Forall2_length in Hacc.
    rewrite length_skipn, questions_for_length in Hacc.
    cbn [length] in Hacc. lia.
  - inversion Hacc as [|q a' qs' answers' Hq Hrest Hskip]; subst a' answers'.
    symmetry in Hskip. destruct (skipn_cons_nth _ _ _ _ Hskip) as [Hnth Hnext].
    destruct ws as [|w ws]; [discriminate|].
    cbn [length] in Hl. injection Hl as Hl.
    assert (Hs : step st <> -1) by lia.
    assert (Hcur : current_question st = Some q).
    { unfold current_question. rewrite (q_list_of_lang st l Hlang), Hstep.
      rewrite py_index_nonneg by lia. rewrite Nat2Z.id. exact Hnth. }
    unfold accepted in Hq.
    destruct (validator (options q) a) as [s| |] eqn:Hv;
      [clear Hq | contradiction | contradiction].
    cbn [saved_answers]. rewrite Hv.
    assert (Hqs' : length qs' = (9 - S k)%nat).
    { rewrite <- Hnext, length_skipn, questions_for_length. reflexivity. }
    destruct (Nat.eq_dec (S k) 9) as [Hlast | Hmore].
    + assert (answers = []).
      { apply Forall2_length in Hrest. rewrite Hqs' in Hrest.
        destruct answers; [reflexivity | cbn [length] in Hrest; lia]. }
      subst answers. destruct ws; [|discriminate].
      assert (Hnil : qs' = [])
        by (destruct qs'; [reflexivity | cbn [length] in Hqs'; lia]).
      rewrite Hnil.
      assert (Hnot : ~ step st + 1 < 9) by lia.
      cbn [last] in Hsink. cbn [combine run].
      rewrite (transition_sound w st a _
                 (stores w st a q s Hs Hcur Hv Hnot (Hsink _))).
      cbn [run last saved_answers final sent aborted step data lang app].
      repeat split.
    + assert (Hlt : step st + 1 < 9) by lia.
      destruct (table_next _ _ _ (q_list_of_cases st) Hcur Hlt) as [q' Hq'].
      cbn [combine run].
      rewrite (transition_sound w st a _
                 (advances w st a q q' s Hs Hcur Hv Hlt Hq')).
      set (st' := {| messages := messages st ++ exchange a (prompt q');
                     step := step st + 1;
                     data := data st ++ [s];
                     lang := lang st |}).
      assert (Hne : answers <> []).
      { apply Forall2_length in Hrest. rewrite Hqs' in Hrest.
        destruct answers; [cbn [length] in Hrest; lia | discriminate]. }
      assert (Hlast1 : last (w :: ws) accepting_world
                       = last ws accepting_world).
      { destruct ws; [|reflexivity].
        destruct answers; [congruence | discriminate]. }
      rewrite Hlast1 in *.
      assert (Hst' : step st' = Z.of_nat (S k)) by (cbn [st' step]; lia).
      assert (HSk : (S k < 9)%nat) by lia.
      assert (Hrest' : Forall2 accepted (skipn (S k) (questions_for l)) answers)
        by (rewrite Hnext; exact Hrest).
      pose proof (IH ws (S k) st' Hlang Hst' HSk Hrest' Hl Hsink) as IH'.
      rewrite Hnext in IH'. cbn [st' data] in IH'.
      rewrite <- app_assoc in IH'. cbn [app] in IH'.
      cbn [final sent aborted app]. exact IH'.
Qed.

(** One complete application from a reset session. *)
Lemma run_application (a : application) (st : session) :
  complete_application a ->
  step st = -1 ->
  data st = [] ->
  sent (run st (turns_of a)) = [row_of a]
  /\ aborted (run st (turns_of a)) = false
  /\ step (final (run st (turns_of a))) = -1
  /\ data (final (run st (turns_of a))) = []
  /\ lang (final (run st (turns_of a))) = None.
Proof.
  intros [Hsel [Hacc [Hlen Hsink]]] Hs Hd.
  unfold turns_of, row_of.
  destruct (app_worlds a) as [|v ws] eqn:Hws; [discriminate|].
  cbn [length] in Hlen. injection Hlen as Hlen.
  pose proof (Forall2_length Hacc) as Hn.
  rewrite questions_for_length in Hn.
  assert (Hlast : last (v :: ws) accepting_world = last ws accepting_world)
    by (destruct ws; [discriminate | reflexivity]).
  rewrite Hlast in *. cbn [combine run].
  rewrite (transition_sound v st (app_locale a) _
             (selects v st (app_locale a) (app_lang a) Hs Hsel)).
  set (st0 := {| messages :=
                   messages st
                   ++ exchange (app_locale a)
                        (prompt_at (questions_for (app_lang a)) 0);
                 step := 0;
                 data := data st;
                 lang := Some (app_lang a) |}).
  assert (H9 : (0 < 9)%nat) by lia.
  assert (Hw : length ws = length (app_answers a)) by congruence.
  pose proof (run_answers_stored (app_lang a) (app_answers a) ws 0 st0
                eq_refl eq_refl H9 Hacc Hw Hsink) as H.
  cbn [skipn st0 data] in H. rewrite Hd in H. cbn [app] in H.
  cbn [final sent aborted app]. exact H.
Qed.

(** X8. Applications follow one another in one session: any number of
    complete applications, each with its own locale, answers, clocks and
    spreadsheet responses, leaves one row per application, in order, each
    holding the timestamp of its last turn and its own nine answers; the
    session ends reset. *)
Theorem applications_in_sequence (apps : list application) :
  Forall complete_application apps ->
  sent (run initial_session (flat_map turns_of apps)) = map row_of apps
  /\ aborted (run initial_session (flat_map turns_of apps)) = false
  /\ step (final (run initial_session (flat_map turns_of apps))) = -1
  /\ data (final (run initial_session (flat_map turns_of apps))) = []
  /\ lang (final (run initial_session (flat_map turns_of apps))) = None.
Proof.
  intros Happs.
  assert (Hgen : forall st,
             step st = -1 -> data st = [] ->
             (apps = [] -> lang st = None) ->
             sent (run st (flat_map turns_of apps)) = map row_of apps
             /\ aborted (run st (flat_map turns_of apps)) = false
             /\ step (final (run st (flat_map turns_of apps))) = -1
             /\ data (final (run st (flat_map turns_of apps))) = []
             /\ lang (final (run st (flat_map turns_of apps))) = None).
  { induction Happs as [|a apps Ha Hrest IH]; intros st Hs Hd Hl.
    - cbn. repeat split; auto.
    - cbn [flat_map map].
      destruct (run_application a st Ha Hs Hd) as [E [A [S1 [D1 L1]]]].
      destruct (run_app (turns_of a) (flat_map turns_of apps) st A)
        as [F [_ [Se Ab]]].
      rewrite F, Se, Ab, E.
      destruct (IH (final (run st (turns_of a))) S1 D1 (fun _ => L1))
        as [E' [A' [S' [D' L']]]].
      rewrite E'. cbn [app]. repeat split; assumption. }
  apply Hgen; reflexivity.
Qed.

End Sequence.

(** * Further properties of the validator and of the classifier *)

Section Selection.

Context {U : Unicode}.

Lemma resolved_labels_incl (opts : list str) (user_input : str) :
  incl (resolved_labels opts user_input) opts.
Proof.
  unfold resolved_labels. intros x Hx. apply in_map_iff in Hx.
  destruct Hx as [r [<- Hr]]. apply filter_In in Hr. destruct Hr as [_ Hr].
  unfold in_range in Hr. apply andb_true_iff in Hr. destruct Hr as [H1 H2].
  apply Z.leb_le in H1, H2. apply nth_In. lia.
Qed.

(** X9. What is saved for a question with options is a list of labels
    of that question, none of them twice, joined by a comma and a space:
    there is at least one label and there are at most as many as the
    question has options. *)
Theorem saved_selection_from_options (opts : list str)
    (user_input answer : str) :
  opts <> [] ->
  validator (Some opts) user_input = Valid answer ->
  exists labels,
    answer = join (lit ", ") labels
    /\ labels <> []
    /\ NoDup labels
    /\ incl labels opts
    /\ (length labels <= length opts)%nat.
Proof.
  intros Hne Hv.
  assert (Hlim : within_int_limit user_input = true).
  { destruct (within_int_limit user_input) eqn:E; [reflexivity|].
    rewrite (validator_overflow _ _ Hne E) in Hv. discriminate. }
  rewrite validator_multi in Hv by assumption.
  destruct (resolved_labels opts user_input) as [|x res] eqn:Hres;
    [discriminate|].
  injection Hv as <-. exists (first_occurrences [] (x :: res)).
  assert (Hincl : incl (first_occurrences [] (x :: res)) opts).
  { intros y Hy. apply first_occurrences_fresh in Hy. destruct Hy as [Hy _].
    apply (resolved_labels_incl opts user_input). rewrite Hres. exact Hy. }
  pose proof (first_occurrences_NoDup [] (x :: res)) as Hnd.
  split; [reflexivity|]. split; [apply first_occurrences_nonempty; discriminate|].
  split; [exact Hnd|]. split; [exact Hincl|].
  apply NoDup_incl_length; assumption.
Qed.

(** The matches of an input in two parts with a separator between them
    are the matches of the first part followed by those of the second. *)
Lemma findall_from_separated (a gap b cur : str) :
  gap <> [] ->
  forallb (fun c => negb (is_decimal c)) gap = true ->
  findall_from cur (a ++ gap ++ b)
  = findall_from cur a ++ findall_from [] b.
Proof.
  intros Hne Hgap. revert cur. induction a as [|c a IH]; intros cur.
  - cbn [app findall_from]. destruct gap as [|g gap]; [congruence|].
    cbn [forallb] in Hgap. apply andb_true_iff in Hgap.
    destruct Hgap as [Hg Hrest]. apply negb_true_iff in Hg.
    cbn [app findall_from]. rewrite Hg, (findall_from_gap gap b Hrest).
    destruct cur; reflexivity.
  - cbn [app findall_from]. destruct (is_decimal c).
    + apply IH.
    + destruct cur; rewrite IH; reflexivity.
Qed.

(** X10. Only the numbers of an input count, not what stands between
    them: replacing a separator by any other separator, both free of
    digits and not empty, gives the same matches and so the same
    verdict and the same saved answer. *)
Theorem separators_do_not_matter (opts : list str) (a b gap1 gap2 : str) :
  opts <> [] ->
  gap1 <> [] ->
  gap2 <> [] ->
  forallb (fun c => negb (is_decimal c)) gap1 = true ->
  forallb (fun c => negb (is_decimal c)) gap2 = true ->
  findall_digits (a ++ gap1 ++ b) = findall_digits a ++ findall_digits b
  /\ validator (Some opts) (a ++ gap1 ++ b)
     = validator (Some opts) (a ++ gap2 ++ b).
Proof.
  intros Hne Hn1 Hn2 Hg1 Hg2.
  assert (E1 : findall_digits (a ++ gap1 ++ b)
               = findall_digits a ++ findall_digits b)
    by (apply findall_from_separated; assumption).
  assert (E2 : findall_digits (a ++ gap2 ++ b)
               = findall_digits a ++ findall_digits b)
    by (apply findall_from_separated; assumption).
  split; [exact E1|]. destruct opts as [|o opts]; [congruence|].
  unfold validator. cbn [truthy]. rewrite E1, E2. reflexivity.
Qed.

Lemma findall_from_nonempty (s cur : str) :
  cur <> [] -> findall_from cur s <> [].
Proof.
  revert cur. induction s as [|c s IH]; intros cur Hne; cbn [findall_from].
  - destruct cur; [congruence | discriminate].
  - destruct (is_decimal c).
    + apply IH. destruct cur; discriminate.
    + destruct cur; [congruence | discriminate].
Qed.

Lemma findall_from_leading (z : char) (s cur : str) :
  cur <> [] ->
  findall_from (z :: cur) s
  = match findall_from cur s with
    | r :: rs => (z :: r) :: rs
    | [] => []
    end.
Proof.
  revert cur. induction s as [|c s IH]; intros cur Hne; cbn [findall_from].
  - destruct cur; [congruence | reflexivity].
  - destruct (is_decimal c).
    + change ((z :: cur) ++ [c]) with (z :: (cur ++ [c])). apply IH.
      destruct cur; discriminate.
    + destruct cur; [congruence | reflexivity].
Qed.

Lemma digits_value_leading_zero (z : char) (r : str) :
  decimal z = Some 0%N -> digits_value (z :: r) = digits_value r.
Proof.
  intros Hz. unfold digits_value. cbn [fold_left]. rewrite Hz. reflexivity.
Qed.

(** X11. A zero in front of a number does not change what the number
    selects, as long as [int] still converts it: an input that begins
    with a run of fewer than [max_str_digits] digits gets the same
    verdict and the same saved answer with a zero put before it. *)
Theorem leading_zero_ignored (opts : list str) (z c : char) (s : str) :
  decimal z = Some 0%N ->
  is_decimal c = true ->
  opts <> [] ->
  Z.of_nat (length (hd [] (findall_digits (c :: s)))) < max_str_digits ->
  validator (Some opts) (z :: c :: s) = validator (Some opts) (c :: s).
Proof.
  intros Hz Hc Hne Hlen.
  assert (Hz' : is_decimal z = true)
    by (unfold is_decimal; rewrite Hz; reflexivity).
  unfold validator. destruct opts as [|o opts]; [congruence|]. cbn [truthy].
  unfold findall_digits in *. cbn [findall_from] in *.
  rewrite Hz', Hc. rewrite Hc in Hlen. cbn [app] in *.
  rewrite (findall_from_leading z s [c]) by discriminate.
  pose proof (findall_from_nonempty s [c]) as Hnon.
  destruct (findall_from [c] s) as [|r rs];
    [exfalso; apply Hnon; [discriminate | reflexivity]|].
  cbn [hd] in Hlen. cbn [valid_selections].
  rewrite (int_within (z :: r)) by (apply Z.leb_le; cbn [length]; lia).
  rewrite (int_within r) by (apply Z.leb_le; lia).
  rewrite (digits_value_leading_zero z r Hz). reflexivity.
Qed.

Lemma contains_map_lower (pat s : str) :
  contains pat (map ascii_lower_char s) = true <-> occurs_ignoring_case pat s.
Proof.
  rewrite contains_substring. unfold occurs_ignoring_case. split.
  - intros [a' [b' H]]. apply map_eq_app in H.
    destruct H as [a [rest [-> [Ha Hrest]]]]. apply map_eq_app in Hrest.
    destruct Hrest as [k [b [-> [Hk Hb]]]]. exists a, k, b. auto.
  - intros [a [k [b [-> Hk]]]]. rewrite !map_app, Hk. eauto.
Qed.

(** X12. On ASCII input the choice of the locale ignores the case of
    letters and looks inside words: Spanish is selected exactly when
    [span] or [espa] occurs somewhere in the input in any mix of upper
    and lower case; English exactly when neither occurs but [eng] or
    [ingl] does; otherwise no locale is selected. *)
Theorem locale_ignores_case (user_input : str) :
  forallb is_ascii user_input = true ->
  (selected_language user_input = Some es <->
   occurs_ignoring_case (lit "span") user_input
   \/ occurs_ignoring_case (lit "espa") user_input)
  /\ (selected_language user_input = Some en <->
      ~ (occurs_ignoring_case (lit "span") user_input
         \/ occurs_ignoring_case (lit "espa") user_input)
      /\ (occurs_ignoring_case (lit "eng") user_input
          \/ occurs_ignoring_case (lit "ingl") user_input)).
Proof.
  intros Hascii.
  assert (Hsp : spanish_keyword (str_lower user_input) = true <->
                occurs_ignoring_case (lit "span") user_input
                \/ occurs_ignoring_case (lit "espa") user_input).
  { unfold spanish_keyword. rewrite (str_lower_ascii _ Hascii).
    rewrite orb_true_iff, !contains_map_lower. reflexivity. }
  assert (Hen : english_keyword (str_lower user_input) = true <->
                occurs_ignoring_case (lit "eng") user_input
                \/ occurs_ignoring_case (lit "ingl") user_input).
  { unfold english_keyword. rewrite (str_lower_ascii _ Hascii).
    rewrite orb_true_iff, !contains_map_lower. reflexivity. }
  split.
  - rewrite selected_language_spanish. exact Hsp.
  - rewrite selected_language_english, <- Hsp, <- Hen.
    rewrite not_true_iff_false. reflexivity.
Qed.

End Selection.

(** * The numbers shown in the prompts *)

Lemma lit_ascii_cons (c : ascii) (s : string) :
  (N_of_ascii c <? 128)%N = true ->
  lit (String c s) = N_of_ascii c :: lit s.
Proof.
  intros H. unfold lit. cbn [list_ascii_of_string map utf8_decode].
  rewrite H. reflexivity.
Qed.

Section Numbers.

Context {U : Unicode}.

Lemma decimal_of_digit (k : N) :
  (k < 10)%N -> decimal (48 + k)%N = Some k.
Proof.
  intros Hk. rewrite decimal_ascii by (unfold is_ascii; apply N.ltb_lt; lia).
  unfold ascii_decimal.
  replace ((48 <=? 48 + k)%N && (48 + k <=? 57)%N) with true.
  - f_equal. lia.
  - symmetry. apply andb_true_iff. split; apply N.leb_le; lia.
Qed.

Lemma int_step_digit (acc : Z) (k : N) :
  (k < 10)%N -> int_step acc (48 + k)%N = 10 * acc + Z.of_N k.
Proof. intros Hk. unfold int_step. rewrite decimal_of_digit; auto. Qed.

Ltac uint_cases d IH :=
  induction d as [|d IH|d IH|d IH|d IH|d IH|d IH|d IH|d IH|d IH|d IH].

Ltac digit_step :=
  cbn [DecimalString.NilEmpty.string_of_uint];
  rewrite lit_ascii_cons by reflexivity; cbn [fold_left forallb];
  match goal with
  | |- context [N_of_ascii ?c] =>
      let k := eval vm_compute in (N_of_ascii c - 48)%N in
      change (N_of_ascii c) with (48 + k)%N
  end.

Lemma fold_int_acc (d : Decimal.uint) (acc : positive) :
  fold_left int_step (lit (DecimalString.NilEmpty.string_of_uint d))
    (Z.pos acc)
  = Z.pos (Pos.of_uint_acc d acc).
Proof.
  revert acc. uint_cases d IH; intros acc;
    [reflexivity | digit_step; rewrite int_step_digit by reflexivity;
                   cbn [Pos.of_uint_acc]; rewrite <- IH; f_equal; lia ..].
Qed.

Lemma fold_int_uint (d : Decimal.uint) :
  fold_left int_step (lit (DecimalString.NilEmpty.string_of_uint d)) 0
  = Z.of_N (Pos.of_uint d).
Proof.
  uint_cases d IH;
    [reflexivity
    | digit_step; rewrite int_step_digit by reflexivity; exact IH
    | digit_step; rewrite int_step_digit by reflexivity;
      cbn [Pos.of_uint Z.of_N]; rewrite <- fold_int_acc; f_equal ..].
Qed.

Lemma uint_digits (d : Decimal.uint) :
  forallb is_decimal (lit (DecimalString.NilEmpty.string_of_uint d)) = true.
Proof.
  uint_cases d IH;
    [reflexivity
    | digit_step; rewrite IH, andb_true_r; unfold is_decimal;
      rewrite decimal_of_digit by reflexivity; reflexivity ..].
Qed.

(** [int(str(n)) == n], for the numbers that [int] converts. *)
Lemma digits_value_str_of_N (n : N) : digits_value (str_of_N n) = Z.of_N n.
Proof.
  unfold str_of_N, digits_value. change (fun acc c => _) with int_step.
  rewrite <- (DecimalN.Unsigned.of_to n) at 2. unfold N.of_uint.
  destruct (N.to_uint n) eqn:E;
    try (unfold DecimalString.NilZero.string_of_uint; apply fold_int_uint).
  cbn [DecimalString.NilZero.string_of_uint Pos.of_uint Z.of_N].
  rewrite lit_ascii_cons by reflexivity. cbn [fold_left].
  change (N_of_ascii "0") with (48 + 0)%N.
  rewrite int_step_digit by reflexivity. reflexivity.
Qed.

Lemma int_str_of_N (n : N) :
  Z.of_nat (length (str_of_N n)) <= max_str_digits ->
  int (str_of_N n) = Some (Z.of_N n).
Proof.
  intros H. rewrite int_within by (apply Z.leb_le; exact H).
  rewrite digits_value_str_of_N. reflexivity.
Qed.

(** [str(n)] is a nonempty string of digits. *)
Lemma str_of_N_digits (n : N) :
  str_of_N n <> [] /\ forallb is_decimal (str_of_N n) = true.
Proof.
  unfold str_of_N.
  destruct (N.to_uint n) eqn:E;
    try (unfold DecimalString.NilZero.string_of_uint; split;
         [cbn [DecimalString.NilEmpty.string_of_uint];
          rewrite lit_ascii_cons by reflexivity; discriminate
         | apply uint_digits]).
  cbn [DecimalString.NilZero.string_of_uint].
  rewrite lit_ascii_cons by reflexivity. split; [discriminate|].
  cbn [forallb]. change (N_of_ascii "0") with (48 + 0)%N.
  unfold is_decimal. rewrite decimal_of_digit by reflexivity. reflexivity.
Qed.

Lemma findall_digits_number (r : str) :
  r <> [] -> forallb is_decimal r = true -> findall_digits r = [r].
Proof.
  intros Hne Hd. apply maximal_runs_unique.
  assert (H : maximal_runs ([] ++ r ++ []) [r]).
  { apply (runs_next [] r [] []); auto. apply runs_end. reflexivity. }
  cbn [app] in H. rewrite app_nil_r in H. exact H.
Qed.

(** Typing the number [i+1] selects the option at index [i]. *)
Lemma validator_number (opts : list str) (i : nat) (opt : str) :
  nth_error opts i = Some opt ->
  Z.of_nat (length (str_of_N (N.of_nat i + 1))) <= max_str_digits ->
  validator (Some opts) (str_of_N (N.of_nat i + 1)) = Valid opt.
Proof.
  intros Hi Hlen.
  assert (Hlt : (i < length opts)%nat)
    by (apply nth_error_Some; congruence).
  assert (Hne : opts <> []) by (destruct opts; [cbn in Hlt; lia | discriminate]).
  destruct (str_of_N_digits (N.of_nat i + 1)) as [Hr Hd].
  assert (Hlim : within_int_limit (str_of_N (N.of_nat i + 1)) = true).
  { unfold within_int_limit. rewrite (findall_digits_number _ Hr Hd).
    cbn [forallb]. rewrite andb_true_r. apply Z.leb_le. exact Hlen. }
  rewrite validator_multi by assumption.
  unfold resolved_labels. rewrite (findall_digits_number _ Hr Hd).
  cbn [filter]. unfold in_range. rewrite digits_value_str_of_N.
  replace ((1 <=? Z.of_N (N.of_nat i + 1))
           && (Z.of_N (N.of_nat i + 1) <=? Z.of_nat (length opts))) with true
    by (symmetry; apply andb_true_iff; split; apply Z.leb_le; lia).
  cbn [map]. rewrite digits_value_str_of_N.
  replace (Z.to_nat (Z.of_N (N.of_nat i + 1) - 1)) with i by lia.
  rewrite (nth_error_nth _ _ _ Hi). reflexivity.
Qed.

(** The numbers of the options have one digit. *)
Lemma str_of_N_short (i : nat) :
  (i < 8)%nat -> length (str_of_N (N.of_nat i + 1)) = 1%nat.
Proof.
  intros H. do 8 (destruct i as [|i]; [reflexivity|]). lia.
Qed.

End Numbers.

(** No question of either table has more than eight options. *)
Lemma table_options_length (ql : list question) (q : question)
    (opts : list str) :
  ql = QUESTIONS_ES \/ ql = QUESTIONS_EN ->
  In q ql ->
  options q = Some opts ->
  (length opts <= 8)%nat.
Proof.
  intros Hql Hin Ho. apply (in_map options) in Hin.
  rewrite (options_of_tables ql Hql), Ho in Hin.
  unfold options_table in Hin. cbn [In] in Hin.
  repeat (destruct Hin as [Hin | Hin]); try discriminate; try contradiction;
    injection Hin as <-;
    unfold EXP_OPTIONS, SHIFT_OPTIONS, LANG_OPTIONS, TRANS_OPTIONS;
    cbn [length]; lia.
Qed.

Lemma nth_error_enumerate {A : Type} (l : list A) :
  forall (k : N) (i : nat) (x : A),
    nth_error l i = Some x ->
    nth_error (enumerate_from k l) i = Some ((k + N.of_nat i)%N, x).
Proof.
  induction l as [|y l IH]; intros k i x H.
  - destruct i; discriminate.
  - destruct i as [|i].
    + cbn in H. injection H as ->. cbn. rewrite N.add_0_r. reflexivity.
    + cbn [nth_error enumerate_from] in *. rewrite (IH (k + 1)%N i x H).
      do 2 f_equal. lia.
Qed.

Lemma join_contains (sep x : str) (l : list str) :
  In x l -> exists a b, join sep l = a ++ x ++ b.
Proof.
  induction l as [|y l IH]; intros Hin; [contradiction|].
  destruct Hin as [-> | Hin].
  - destruct l as [|z l].
    + exists [], []. cbn. rewrite app_nil_r. reflexivity.
    + exists [], (sep ++ join sep (z :: l)). reflexivity.
  - destruct l as [|z l]; [contradiction|].
    destruct (IH Hin) as [a [b H]].
    exists (y ++ sep ++ a), b. cbn [join] in *. rewrite H.
    rewrite <- !app_assoc. reflexivity.
Qed.

(** The numbered list holds a line for every option: its index plus one,
    a full stop, a space and the label. *)
Lemma numbered_line (opts : list str) (i : nat) (opt : str) :
  nth_error opts i = Some opt ->
  exists a b,
    numbered opts
    = a ++ (str_of_N (N.of_nat i + 1) ++ lit ". " ++ opt) ++ b.
Proof.
  intros Hi. unfold numbered. apply join_contains.
  apply in_map_iff. exists (N.of_nat i, opt). split; [reflexivity|].
  apply (nth_error_In _ i).
  pose proof (nth_error_enumerate opts 0%N i opt Hi) as H.
  rewrite N.add_0_l in H. exact H.
Qed.

(** In both tables the prompt of a question with options ends with the
    numbered list of these options. *)
Lemma table_prompt_numbered (ql : list question) (q : question)
    (opts : list str) :
  ql = QUESTIONS_ES \/ ql = QUESTIONS_EN ->
  In q ql ->
  options q = Some opts ->
  exists head, prompt q = head ++ nl ++ numbered opts.
Proof.
  intros [-> | ->] Hin Ho.
  - cbv delta [QUESTIONS_ES] in Hin. cbn [In] in Hin.
    repeat (destruct Hin as [<- | Hin]); try contradiction;
      cbn [options] in Ho; try discriminate; injection Ho as <-;
      cbn [prompt]; eexists; reflexivity.
  - cbv delta [QUESTIONS_EN] in Hin. cbn [In] in Hin.
    repeat (destruct Hin as [<- | Hin]); try contradiction;
      cbn [options] in Ho; try discriminate; injection Ho as <-;
      cbn [prompt]; eexists; reflexivity.
Qed.

Section Prompts.

Context {U : Unicode}.

(** X13. The prompts and the validator agree on the numbering: for every
    question with options, in either table, and for every option, the
    prompt shows a line made of the option's position counted from one, a
    full stop, a space and the label; and typing that number alone
    selects exactly that label. *)
Theorem prompt_numbers_select (ql : list question) (q : question)
    (opts : list str) (i : nat) (opt : str) :
  ql = QUESTIONS_ES \/ ql = QUESTIONS_EN ->
  In q ql ->
  options q = Some opts ->
  nth_error opts i = Some opt ->
  contains (str_of_N (N.of_nat i + 1) ++ lit ". " ++ opt) (prompt q) = true
  /\ validator (options q) (str_of_N (N.of_nat i + 1)) = Valid opt.
Proof.
  intros Hql Hin Ho Hi. split.
  - apply contains_substring.
    destruct (table_prompt_numbered ql q opts Hql Hin Ho) as [head ->].
    destruct (numbered_line opts i opt Hi) as [a [b ->]].
    exists (head ++ nl ++ a), b. rewrite <- !app_assoc. reflexivity.
  - rewrite Ho. apply validator_number; [exact Hi|].
    assert (Hlt : (i < length opts)%nat)
      by (apply nth_error_Some; congruence).
    pose proof (table_options_length ql q opts Hql Hin Ho) as H8.
    rewrite str_of_N_short by lia. unfold max_str_digits. cbn. lia.
Qed.

End Prompts.

(** * Timestamps *)









(** * The whole script *)

Lemma session_round_trip (st : session) :
  session_of_state (state_of_session st) = st.
Proof. destruct st. reflexivity. Qed.

Lemma session_of_init (s : session_state) :
  session_of_state (init_session_state s) = session_of_state s.
Proof. destruct s as [[m|] [n|] [d|] [l|]]; reflexivity. Qed.

Lemma init_is_state_of (s : session_state) :
  init_session_state s = state_of_session (session_of_state s).
Proof. destruct s as [[m|] [n|] [d|] [l|]]; reflexivity. Qed.

Lemma chat_of_app (p1 p2 : list element) :
  chat_of (p1 ++ p2) = chat_of p1 ++ chat_of p2.
Proof. unfold chat_of. apply flat_map_app. Qed.

Lemma chat_of_chat_elements (ms : list message) :
  chat_of (chat_elements ms) = ms.
Proof.
  induction ms as [|[r text] ms IH]; [reflexivity|].
  cbn. f_equal. exact IH.
Qed.

Section Page.

Context {U : Unicode}.

Lemma raised_state (w : world) (st st' : session) (user_input : str) :
  handle_turn w st user_input = Raised st' ->
  st' = append_message user user_input st.
Proof.
  intros H. pose proof (handle_turn_transition w st user_input) as T.
  rewrite H in T. inversion T; subst; reflexivity.
Qed.

(** X15. A failed connection is remembered.  When the first run cannot
    connect and the exception has a text, the page is the title and
    [System Offline] with that text, the input is dropped and nothing is
    read from or written to the session state or the sheet; and every
    later run does the same, whatever connecting would do by then,
    because the failure is what [connect_services] has cached. *)
Theorem failed_connection_is_remembered (e : str) (w1 : world)
    (s1 : session_state) (input1 : option str) :
  e <> [] ->
  let r1 := script (ConnectFails e) w1 None s1 input1 in
  page r1 = [Title (lit "🚀 Job Application Portal");
             ErrorBox (lit "System Offline: " ++ e)]
  /\ state_after r1 = s1
  /\ rows_appended r1 = []
  /\ forall a w s user_input,
       script a w (cache_after r1) s user_input
       = {| page := page r1;
            state_after := s;
            cache_after := cache_after r1;
            rows_appended := [] |}.
Proof.
  intros He. destruct e as [|c e]; [congruence|].
  cbv zeta. repeat split.
Qed.

(** X16. The page shows what the session holds: whenever the script gets
    past the connection, the chat messages drawn on the page, in their
    order, are exactly the transcript stored when the run ends. *)
Theorem page_shows_transcript (a : connect_attempt) (w : world)
    (cache : option connection) (s : session_state)
    (user_input : option str) :
  offline cache a = false ->
  chat_of (page (script a w cache s user_input))
  = messages (session_of_state (state_after (script a w cache s user_input))).
Proof.
  unfold offline, script.
  destruct (cached_connect_services cache a) as [[[model sh] error_msg] cache'].
  cbn [fst snd]. intros Hon. rewrite Hon.
  assert (Hshown :
            chat_of ([Title (lit "🚀 Job Application Portal")]
                     ++ [SuccessBox (lit "System Online ✅")]
                     ++ chat_elements
                          (messages (session_of_state (init_session_state s)))
                     ++ [ChatInput (lit "Type your answer here...")])
            = messages (session_of_state (init_session_state s))).
  { rewrite !chat_of_app, chat_of_chat_elements. cbn. apply app_nil_r. }
  destruct user_input as [[|c text]|]; cbn [page state_after].
  - exact Hshown.
  - destruct (handle_turn (world_with sh w)
                (session_of_state (init_session_state s)) (c :: text))
      as [st' response rows | st'] eqn:H; cbn [page state_after];
      rewrite session_round_trip, chat_of_app, Hshown.
    + rewrite (replied_messages _ _ _ _ _ _ H). reflexivity.
    + rewrite (raised_state _ _ _ _ H). reflexivity.
  - exact Hshown.
Qed.

End Page.

Lemma cache_after_connect (cache : option connection) (a : connect_attempt) :
  snd (cached_connect_services cache a)
  = Some (fst (cached_connect_services cache a)).
Proof. destruct cache; reflexivity. Qed.

Lemma last_cons_default {A : Type} (x d : A) (l : list A) :
  last (x :: l) d = last l x.
Proof.
  revert x d. induction l as [|y l IH]; intros x d; [reflexivity|].
  change (last (x :: y :: l) d) with (last (y :: l) d).
  rewrite (IH y d), (IH y x). reflexivity.
Qed.

Section Reruns.

Context {U : Unicode}.

(** X17. A connection failure without a text goes unnoticed.  When the
    exception caught by [connect_services] has an empty [str(e)], the
    script does not stop: the page says [System Online], but there is no
    sheet, so no run ever hands over a row; on the last question the
    reply is the [AttributeError] of the missing sheet, and the answers
    stay buffered with the cursor on the last question. *)
Theorem connection_failure_without_text (a : connect_attempt) (w : world)
    (cache : option connection) (s : session_state)
    (user_input : option str) :
  fst (cached_connect_services cache a) = (None, None, Some []) ->
  In (SuccessBox (lit "System Online ✅"))
    (page (script a w cache s user_input))
  /\ rows_appended (script a w cache s user_input) = []
  /\ cache_after (script a w cache s user_input) = Some (None, None, Some [])
  /\ (forall c text,
        user_input = Some (c :: text) ->
        step (session_of_state s) = 8 ->
        last (page (script a w cache s user_input)) Traceback
        = ChatMessage assistant (lit "Error saving data: " ++ attribute_error)
        /\ state_after (script a w cache s user_input)
           = state_of_session
               {| messages :=
                    messages (session_of_state s)
                    ++ exchange (c :: text)
                         (lit "Error saving data: " ++ attribute_error);
                  step := 8;
                  data := data (session_of_state s) ++ [c :: text];
                  lang := lang (session_of_state s) |}).
Proof.
  intros Hc. pose proof (cache_after_connect cache a) as Hcache.
  unfold script.
  destruct (cached_connect_services cache a) as [[[model sh] error_msg] cache'].
  cbn [fst snd] in Hc, Hcache. injection Hc as -> -> ->. subst cache'.
  cbn [str_truthy]. rewrite session_of_init.
  set (st := session_of_state s).
  split; [|split; [|split]].
  - destruct user_input as [[|c text]|]; cbn [page];
      try (right; left; reflexivity).
    destruct (handle_turn (world_with None w) st (c :: text));
      cbn [page]; right; left; reflexivity.
  - destruct user_input as [[|c text]|]; cbn [rows_appended];
      try reflexivity.
    destruct (handle_turn (world_with None w) st (c :: text)); reflexivity.
  - destruct user_input as [[|c text]|]; cbn [cache_after]; try reflexivity.
    destruct (handle_turn (world_with None w) st (c :: text)); reflexivity.
  - intros c text -> H8.
    assert (Hs : step st <> -1) by lia.
    destruct (py_index_in_range (q_list_of st) (step st)) as [q Hq];
      [rewrite q_list_of_length; lia|].
    assert (Hge : ~ step st + 1 < 9) by lia.
    destruct (table_last _ _ _ (q_list_of_cases st) Hq Hs Hge) as [_ Hfree].
    assert (Hv : validator (options q) (c :: text) = Valid (c :: text))
      by (rewrite Hfree; apply validator_free_text).
    rewrite (transition_sound (world_with None w) st (c :: text) _
               (fails (world_with None w) st (c :: text) q (c :: text)
                  attribute_error Hs Hq Hv Hge eq_refl)).
    cbn [page state_after]. rewrite H8. split; [|reflexivity].
    rewrite !app_assoc.
    change [ChatMessage user (c :: text);
            ChatMessage assistant (lit "Error saving data: " ++ attribute_error)]
      with ([ChatMessage user (c :: text)]
            ++ [ChatMessage assistant
                  (lit "Error saving data: " ++ attribute_error)]).
    rewrite app_assoc. apply last_last.
Qed.

Lemma script_connected (a : connect_attempt) (w : world)
    (cache : option connection) (s : session_state)
    (user_input : option str) :
  fst (cached_connect_services cache a) = ok_connection ->
  cache_after (script a w cache s user_input) = Some ok_connection
  /\ match user_input with
     | Some (c :: text) =>
         match handle_turn w (session_of_state s) (c :: text) with
         | Replied st' _ rows =>
             state_after (script a w cache s user_input)
             = state_of_session st'
             /\ rows_appended (script a w cache s user_input) = rows
         | Raised st' =>
             state_after (script a w cache s user_input)
             = state_of_session st'
             /\ rows_appended (script a w cache s user_input) = []
         end
     | _ =>
         state_after (script a w cache s user_input)
         = state_of_session (session_of_state s)
         /\ rows_appended (script a w cache s user_input) = []
     end.
Proof.
  intros Hc. pose proof (cache_after_connect cache a) as Hcache.
  unfold script.
  destruct (cached_connect_services cache a) as [[[model sh] error_msg] cache'].
  cbn [fst snd] in Hc, Hcache. unfold ok_connection in Hc.
  injection Hc as -> -> ->. subst cache'.
  cbn [str_truthy world_with]. rewrite session_of_init, init_is_state_of.
  destruct user_input as [[|c text]|]; cbn [cache_after state_after rows_appended];
    try (split; [reflexivity | split; reflexivity]).
  destruct (handle_turn w (session_of_state s) (c :: text));
    cbn [cache_after state_after rows_appended];
    split; [reflexivity | split; reflexivity | reflexivity | split; reflexivity].
Qed.

Lemma reruns_connected (runs : list (connect_attempt * world * option str)) :
  forall st,
    last (map state_after
            (reruns (Some ok_connection) (state_of_session st) runs))
      (state_of_session st)
    = state_of_session (final (run st (turns_of_runs runs)))
    /\ concat (map rows_appended
                 (reruns (Some ok_connection) (state_of_session st) runs))
       = sent (run st (turns_of_runs runs)).
Proof.
  induction runs as [|[[a w] user_input] runs IH]; intros st.
  - split; reflexivity.
  - cbn [reruns map concat]. rewrite last_cons_default.
    destruct (script_connected a w (Some ok_connection) (state_of_session st)
                user_input eq_refl) as [Hcache Hrun].
    rewrite Hcache. rewrite session_round_trip in Hrun.
    destruct user_input as [[|c text]|].
    + destruct Hrun as [-> ->]. cbn [turns_of_runs app]. apply IH.
    + cbn [turns_of_runs run].
      destruct (handle_turn w st (c :: text)) as [st' response rows | st'];
        destruct Hrun as [-> ->]; cbn [final sent app];
        destruct (IH st') as [E1 E2]; rewrite E1, E2; split; reflexivity.
    + destruct Hrun as [-> ->]. cbn [turns_of_runs app]. apply IH.
Qed.

(** X18. The reruns of the script are one conversation.  Starting with
    nothing cached and an empty session state, if the first run connects,
    then over any number of runs, with or without input, the session
    state after the last run and the rows handed over are those of the
    handler run over the nonempty inputs from the initial session: the
    connection is made once, a run without input or with an empty input
    changes nothing, and nothing is lost between runs. *)
Theorem reruns_are_one_conversation (w0 : world) (input0 : option str)
    (rest : list (connect_attempt * world * option str)) :
  let runs := (Connects, w0, input0) :: rest in
  let results := reruns None empty_session_state runs in
  let t := run initial_session (turns_of_runs runs) in
  last (map state_after results) empty_session_state
  = state_of_session (final t)
  /\ concat (map rows_appended results) = sent t
  /\ Forall (fun r => cache_after r = Some ok_connection) results.
Proof.
  cbv zeta.
  assert (Hfirst : forall rs,
             reruns None empty_session_state ((Connects, w0, input0) :: rs)
             = reruns (Some ok_connection) (state_of_session initial_session)
                 ((Connects, w0, input0) :: rs)).
  { intros rs. cbn [reruns]. reflexivity. }
  rewrite Hfirst.
  destruct (reruns_connected ((Connects, w0, input0) :: rest) initial_session)
    as [E1 E2].
  split; [|split].
  - rewrite <- E1.
    set (results := reruns (Some ok_connection)
                      (state_of_session initial_session)
                      ((Connects, w0, input0) :: rest)).
    assert (Hne : map state_after results <> [])
      by (subst results; cbn [reruns map]; discriminate).
    destruct (map state_after results) as [|x l]; [congruence|].
    rewrite !last_cons_default. reflexivity.
  - exact E2.
  - generalize (state_of_session initial_session) as s.
    generalize ((Connects, w0, input0) :: rest) as runs.
    induction runs as [|[[a w] user_input] runs IH]; intros s.
    + constructor.
    + cbn [reruns].
      destruct (script_connected a w (Some ok_connection) s user_input eq_refl)
        as [Hcache _].
      constructor; [exact Hcache|]. rewrite Hcache. apply IH.
Qed.

End Reruns.

(** * The locale and the answers *)

Section Locales.

Context {U : Unicode}.

Lemma same_question_options (st1 st2 : session) :
  step st2 = step st1 ->
  match current_question st1, current_question st2 with
  | Some q1, Some q2 => options q2 = options q1
  | None, None => True
  | _, _ => False
  end.
Proof.
  intros Hs.
  assert (H : forall st, option_map options (current_question st)
                         = py_index options_table (step st)).
  { intros st. unfold current_question.
    rewrite <- (options_of_tables _ (q_list_of_cases st)), py_index_map.
    reflexivity. }
  pose proof (H st1) as H1. pose proof (H st2) as H2. rewrite Hs in H2.
  destruct (current_question st1), (current_question st2);
    cbn [option_map] in H1, H2; try exact I; congruence.
Qed.

(** X19. The locale changes the prompts and nothing else: from two
    sessions in the answer phase that differ only in the locale (and the
    transcript), the same input leaves the same cursor and the same
    answers and hands over the same rows; in particular the labels
    stored for a Spanish application are the same as for an English
    one. *)
Theorem locale_changes_prompts_only (w : world) (st1 st2 : session)
    (user_input : str) :
  phase_of st1 = AwaitingAnswer ->
  step st2 = step st1 ->
  data st2 = data st1 ->
  match handle_turn w st1 user_input, handle_turn w st2 user_input with
  | Replied s1 r1 rows1, Replied s2 r2 rows2 =>
      rows1 = rows2 /\ step s1 = step s2 /\ data s1 = data s2
  | Raised s1, Raised s2 => step s1 = step s2 /\ data s1 = data s2
  | _, _ => False
  end.
Proof.
  intros Hphase Hs Hd. apply phase_of_answer in Hphase.
  assert (Hs2 : step st2 <> -1) by congruence.
  pose proof (same_question_options st1 st2 Hs) as Hopt.
  pose proof (handle_turn_transition w st1 user_input) as T.
  destruct T as [l Hs1 Hsel | Hs1 Hsel | Hs1 Hq | q Hs1 Hq Hv
                | q Hs1 Hq Hv
                | q q' a Hs1 Hq Hv Hlt Hq' | q a Hs1 Hq Hv Hge Hsink
                | q a e Hs1 Hq Hv Hge Hsink]; try congruence;
    rewrite Hq in Hopt;
    destruct (current_question st2) as [q2|] eqn:Hq2; try contradiction.
  - rewrite (transition_sound w st2 user_input _
               (raises w st2 user_input Hs2 Hq2)).
    cbn [append_message step data]. split; congruence.
  - rewrite (transition_sound w st2 user_input _
               (overflows w st2 user_input q2 Hs2 Hq2
                  ltac:(rewrite Hopt; exact Hv))).
    cbn [append_message step data]. split; congruence.
  - rewrite (transition_sound w st2 user_input _
               (rejects w st2 user_input q2 Hs2 Hq2
                  ltac:(rewrite Hopt; exact Hv))).
    cbn [step data]. repeat split; congruence.
  - assert (Hlt2 : step st2 + 1 < 9) by lia.
    destruct (table_next _ _ _ (q_list_of_cases st2) Hq2 Hlt2) as [q2' Hq2'].
    rewrite (transition_sound w st2 user_input _
               (advances w st2 user_input q2 q2' a Hs2 Hq2
                  ltac:(rewrite Hopt; exact Hv) Hlt2 Hq2')).
    cbn [step data].
    repeat split; congruence.
  - assert (Hsink2 : append_row w (strftime (now w) :: data st2 ++ [a])
                     = Stored) by (rewrite Hd; exact Hsink).
    rewrite (transition_sound w st2 user_input _
               (stores w st2 user_input q2 a Hs2 Hq2
                  ltac:(rewrite Hopt; exact Hv) ltac:(lia) Hsink2)).
    cbn [step data]. repeat split; congruence.
  - assert (Hsink2 : append_row w (strftime (now w) :: data st2 ++ [a])
                     = Failed e) by (rewrite Hd; exact Hsink).
    rewrite (transition_sound w st2 user_input _
               (fails w st2 user_input q2 a e Hs2 Hq2
                  ltac:(rewrite Hopt; exact Hv) ltac:(lia) Hsink2)).
    cbn [step data]. repeat split; congruence.
Qed.

End Locales.

(** * The further properties at concrete inputs *)



Lemma rows_only_on_last_question_witness :
  let o := @handle_turn ascii_unicode accepting_world last_question_session
             (lit "next Monday") in
  rows_of o = []
  \/ (step last_question_session = 8
      /\ rows_of o
         = [strftime (now accepting_world)
            :: data last_question_session ++ [lit "next Monday"]]
      /\ timestamp_format (strftime (now accepting_world)) = true).
Proof.
  cbv zeta.
  apply (@rows_only_on_last_question ascii_unicode accepting_world
           last_question_session
           (state_of (@handle_turn ascii_unicode accepting_world
                        last_question_session (lit "next Monday")))
           (lit "next Monday")
           (response_of (@handle_turn ascii_unicode accepting_world
                           last_question_session (lit "next Monday")))).
  vm_compute. reflexivity.
Defined.


Lemma applications_in_sequence_witness :
  sent (@run ascii_unicode initial_session
          (flat_map turns_of [english_application; spanish_application]))
  = [ [lit "2025-03-09 14:05:07"; lit "Alex"; lit "Doe"; lit "555-0100";
       lit "Server"; lit "Line cook, Server"; lit "AM, PM"; lit "Bilingual";
       lit "Own transportation"; lit "next Monday"];
      [lit "2025-11-30 08:00:59"; lit "Ana"; lit "Ruiz"; lit "555-0199";
       lit "Housekeeping"; lit "Housekeeping"; lit "Overnight";
       lit "Spanish, Bilingual"; lit "Public Transportation";
       lit "el lunes"] ].
Proof.
  destruct (@applications_in_sequence ascii_unicode
              [english_application; spanish_application]) as [H _].
  - repeat constructor; try reflexivity;
      unfold accepted; vm_compute; exact I.
  - exact H.
Defined.

Lemma saved_selection_from_options_witness :
  exists labels,
    lit "Flexible, AM" = join (lit ", ") labels
    /\ labels <> [] /\ NoDup labels /\ incl labels SHIFT_OPTIONS
    /\ (length labels <= length SHIFT_OPTIONS)%nat.
Proof.
  apply (@saved_selection_from_options ascii_unicode SHIFT_OPTIONS
           (lit "3, 1 and 3")).
  - discriminate.
  - vm_compute. reflexivity.
Defined.

Lemma separators_do_not_matter_witness :
  @findall_digits ascii_unicode (lit "1" ++ lit ", " ++ lit "3")
  = @findall_digits ascii_unicode (lit "1")
    ++ @findall_digits ascii_unicode (lit "3")
  /\ @validator ascii_unicode (Some SHIFT_OPTIONS)
       (lit "1" ++ lit ", " ++ lit "3")
     = @validator ascii_unicode (Some SHIFT_OPTIONS)
         (lit "1" ++ lit " and " ++ lit "3").
Proof.
  apply (@separators_do_not_matter ascii_unicode SHIFT_OPTIONS (lit "1")
           (lit "3") (lit ", ") (lit " and "));
    try reflexivity; vm_compute; discriminate.
Defined.

Lemma leading_zero_ignored_witness :
  @validator ascii_unicode (Some SHIFT_OPTIONS) (lit "03, 1")
  = @validator ascii_unicode (Some SHIFT_OPTIONS) (lit "3, 1").
Proof.
  apply (@leading_zero_ignored ascii_unicode SHIFT_OPTIONS 48%N 51%N
           (lit ", 1")).
  - reflexivity.
  - reflexivity.
  - discriminate.
  - reflexivity.
Defined.

Lemma locale_ignores_case_witness :
  @selected_language ascii_unicode (lit "SPANISH please") = Some es <->
  occurs_ignoring_case (lit "span") (lit "SPANISH please")
  \/ occurs_ignoring_case (lit "espa") (lit "SPANISH please").
Proof.
  apply (@locale_ignores_case ascii_unicode (lit "SPANISH please")).
  reflexivity.
Defined.

Lemma prompt_numbers_select_witness :
  contains (lit "3. Flexible") (prompt (question_at QUESTIONS_EN 5)) = true
  /\ @validator ascii_unicode (options (question_at QUESTIONS_EN 5)) (lit "3")
     = Valid (lit "Flexible").
Proof.
  apply (@prompt_numbers_select ascii_unicode QUESTIONS_EN
           (question_at QUESTIONS_EN 5) SHIFT_OPTIONS 2 (lit "Flexible")).
  - right. reflexivity.
  - do 5 right. left. reflexivity.
  - reflexivity.
  - reflexivity.
Defined.


Lemma failed_connection_is_remembered_witness :
  page (@script ascii_unicode (ConnectFails (lit "timed out")) accepting_world
          None empty_session_state (Some (lit "English")))
  = [Title (lit "🚀 Job Application Portal");
     ErrorBox (lit "System Offline: " ++ lit "timed out")].
Proof.
  destruct (@failed_connection_is_remembered ascii_unicode (lit "timed out")
              accepting_world empty_session_state (Some (lit "English")))
    as [H _].
  - vm_compute. discriminate.
  - exact H.
Defined.

Lemma page_shows_transcript_witness :
  chat_of (page (@script ascii_unicode Connects accepting_world None
                   empty_session_state (Some (lit "English"))))
  = messages
      (session_of_state
         (state_after (@script ascii_unicode Connects accepting_world None
                         empty_session_state (Some (lit "English"))))).
Proof.
  apply (@page_shows_transcript ascii_unicode Connects accepting_world None
           empty_session_state (Some (lit "English"))).
  reflexivity.
Defined.

Lemma connection_failure_without_text_witness :
  In (SuccessBox (lit "System Online ✅"))
    (page (@script ascii_unicode (ConnectFails []) accepting_world None
             (state_of_session last_question_session)
             (Some (lit "next Monday"))))
  /\ rows_appended (@script ascii_unicode (ConnectFails []) accepting_world
                      None (state_of_session last_question_session)
                      (Some (lit "next Monday"))) = [].
Proof.
  destruct (@connection_failure_without_text ascii_unicode (ConnectFails [])
              accepting_world None (state_of_session last_question_session)
              (Some (lit "next Monday")))
    as [H1 [H2 _]].
  - reflexivity.
  - split; [exact H1 | exact H2].
Defined.

Lemma locale_changes_prompts_only_witness :
  match @handle_turn ascii_unicode accepting_world shift_question_session
          (lit "2, 4"),
        @handle_turn ascii_unicode accepting_world
          {| messages := []; step := 5; data := data shift_question_session;
             lang := Some es |}
          (lit "2, 4")
  with
  | Replied s1 r1 rows1, Replied s2 r2 rows2 =>
      rows1 = rows2 /\ step s1 = step s2 /\ data s1 = data s2
  | Raised s1, Raised s2 => step s1 = step s2 /\ data s1 = data s2
  | _, _ => False
  end.
Proof.
  apply (@locale_changes_prompts_only ascii_unicode accepting_world
           shift_question_session
           {| messages := []; step := 5; data := data shift_question_session;
              lang := Some es |}
           (lit "2, 4")); reflexivity.
Defined.
